(** * Phoneme converter: a shallow embedding of
    [Tools/Python/phoneme_converter/phoneme_converter.py]

    The development follows the Python module top to bottom:
    - Python strings are lists of Unicode code points;
    - [re.sub] is a left-to-right scanner over a small pattern syntax that
      covers exactly the regular expressions the module uses;
    - the conversion backend ([JapaneseConverter]) is a record of functions
      that may raise, so every call into it lives in the [option] monad;
    - [PhonemeConverter.hiragana_phoneme_map] is a finite map.

    Definitions come first, the theory of each component afterwards. *)

From Stdlib Require Import Ascii String DecimalNat.
From stdpp Require Import base numbers option list gmap strings.

Open Scope N_scope.
Open Scope nat_scope.

(** ** Python strings *)

(** A [str] is a sequence of code points; iterating over it yields its
    characters one by one. *)
Abbreviation pystr := (list N).

(** An ASCII literal of the source, written as a Rocq string. *)
Definition lit (s : string) : pystr := N_of_ascii <$> list_ascii_of_string s.

(** [c in s] for a one-character string [c]. *)
Definition str_in (c : N) (s : pystr) : bool := existsb (N.eqb c) s.

(** [''.join(parts)]. *)
Definition join_empty (parts : list pystr) : pystr := concat parts.

(** [sep.join(parts)]. *)
Fixpoint str_join (sep : pystr) (parts : list pystr) : pystr :=
  match parts with
  | [] => []
  | [p] => p
  | p :: rest => p ++ sep ++ str_join sep rest
  end.

(** [s.split(sep)] for a one-character separator: the maximal runs between
    the separators; the empty string splits into one empty run. *)
Fixpoint str_split (sep : N) (s : pystr) : list pystr :=
  match s with
  | [] => [[]]
  | c :: s' =>
      if N.eqb c sep then [] :: str_split sep s'
      else match str_split sep s' with
           | [] => [[c]]
           | run :: runs => (c :: run) :: runs
           end
  end.

(** Decimal digits of a number, most significant first. *)
Fixpoint uint_digits (d : Decimal.uint) : pystr :=
  match d with
  | Decimal.Nil => []
  | Decimal.D0 d => 0x30%N :: uint_digits d
  | Decimal.D1 d => 0x31%N :: uint_digits d
  | Decimal.D2 d => 0x32%N :: uint_digits d
  | Decimal.D3 d => 0x33%N :: uint_digits d
  | Decimal.D4 d => 0x34%N :: uint_digits d
  | Decimal.D5 d => 0x35%N :: uint_digits d
  | Decimal.D6 d => 0x36%N :: uint_digits d
  | Decimal.D7 d => 0x37%N :: uint_digits d
  | Decimal.D8 d => 0x38%N :: uint_digits d
  | Decimal.D9 d => 0x39%N :: uint_digits d
  end.

(** [str(n)] for a non-negative integer. *)
Definition py_str (n : nat) : pystr := uint_digits (Nat.to_uint n).

(** ** The fragment of [re] the module uses *)

Module Re.

(** One alternative of a pattern.
    - [Lit s]: the literal text [s] (such as [<b>], or [\[shake\]] once the
      escapes are read);
    - [Upto pre close]: [pre] followed by [[^close]*close], the shape of
      [<color=[^>]*>] and [\[voice=[^\]]*\]];
    - [Class cls]: one character of a character class. *)
Inductive alt : Type :=
  | Lit (s : pystr)
  | Upto (pre : pystr) (close : N)
  | Class (cls : N → bool).

(** A pattern is an alternation [a1|a2|...], tried left to right. *)
Definition pattern : Type := list alt.

Fixpoint starts_with (pre s : pystr) : bool :=
  match pre, s with
  | [], _ => true
  | _ :: _, [] => false
  | a :: pre', b :: s' => N.eqb a b && starts_with pre' s'
  end.

(** Position of the first occurrence of [c]. *)
Fixpoint index_of (c : N) (s : pystr) : option nat :=
  match s with
  | [] => None
  | x :: s' => if N.eqb x c then Some 0 else S <$> index_of c s'
  end.

(** Length of the match of one alternative at the start of [s].  The greedy
    [[^close]*] takes every character up to the first [close]; it cannot
    give any of them back, since the next pattern character has to be
    [close] itself, so the match ends at the first [close] or fails. *)
Definition match_alt (a : alt) (s : pystr) : option nat :=
  match a with
  | Lit l => if starts_with l s then Some (length l) else None
  | Upto pre close =>
      if starts_with pre s
      then (λ i, length pre + i + 1) <$> index_of close (drop (length pre) s)
      else None
  | Class cls =>
      match s with
      | c :: _ => if cls c then Some 1 else None
      | [] => None
      end
  end.

Fixpoint match_pattern (p : pattern) (s : pystr) : option nat :=
  match p with
  | [] => None
  | a :: p' =>
      match match_alt a s with
      | Some n => Some n
      | None => match_pattern p' s
      end
  end.

(** The scanner behind [re.sub(p, '', s)]: [skip] characters of the match in
    progress are still to be dropped; otherwise a match is looked for at the
    current position, and the character is kept when there is none. No
    pattern of the module matches the empty string. *)
Fixpoint sub_scan (p : pattern) (skip : nat) (s : pystr) : pystr :=
  match s with
  | [] => []
  | c :: s' =>
      match skip with
      | S k => sub_scan p k s'
      | O =>
          match match_pattern p s with
          | Some (S k) => sub_scan p k s'
          | _ => c :: sub_scan p 0 s'
          end
      end
  end.

(** [re.sub(p, '', s)]. *)
Definition sub (p : pattern) (s : pystr) : pystr := sub_scan p 0 s.

(** Modelled from the Python runtime: the characters [\s] matches in a
    [str] pattern, that is, those for which [str.isspace] holds. *)
Definition isspace (c : N) : bool :=
  (N.leb 0x09 c && N.leb c 0x0D) || (N.leb 0x1C c && N.leb c 0x20)
  || N.eqb c 0x85 || N.eqb c 0xA0 || N.eqb c 0x1680
  || (N.leb 0x2000 c && N.leb c 0x200A)
  || N.eqb c 0x2028 || N.eqb c 0x2029 || N.eqb c 0x202F || N.eqb c 0x205F
  || N.eqb c 0x3000.

End Re.

(** ** The conversion backend *)

(** [JapaneseConverter]: the interface of the kanji-to-kana engine. A call
    may raise ([None]); the exception is not caught anywhere in
    [PhonemeConverter]. Only [to_hiragana] is called by the functions below
    ([to_romaji] has no caller in the module). *)
Record JapaneseConverter : Type := { to_hiragana : pystr → option pystr }.

(** A backend that never raises and reads [text] as [f text]. *)
Definition reading (f : pystr → pystr) : JapaneseConverter :=
  {| to_hiragana := λ text, Some (f text) |}.

(** A backend that raises on every call. *)
Definition raising : JapaneseConverter := {| to_hiragana := λ _, None |}.

(** ** [PhonemeConverter] *)

(** The items of the dictionary literal [self.hiragana_phoneme_map], row by
    row: one kana character and the string stored for it. *)
Definition hiragana_phoneme_items : list (N * pystr) :=
  [ (* a-row to ha-row, five vowels each *)
    (0x3042, lit "a"); (0x3044, lit "i"); (0x3046, lit "u"); (0x3048, lit "e"); (0x304A, lit "o");
    (0x304B, lit "a"); (0x304D, lit "i"); (0x304F, lit "u"); (0x3051, lit "e"); (0x3053, lit "o");
    (0x304C, lit "a"); (0x304E, lit "i"); (0x3050, lit "u"); (0x3052, lit "e"); (0x3054, lit "o");
    (0x3055, lit "a"); (0x3057, lit "i"); (0x3059, lit "u"); (0x305B, lit "e"); (0x305D, lit "o");
    (0x3056, lit "a"); (0x3058, lit "i"); (0x305A, lit "u"); (0x305C, lit "e"); (0x305E, lit "o");
    (0x305F, lit "a"); (0x3061, lit "i"); (0x3064, lit "u"); (0x3066, lit "e"); (0x3068, lit "o");
    (0x3060, lit "a"); (0x3062, lit "i"); (0x3065, lit "u"); (0x3067, lit "e"); (0x3069, lit "o");
    (0x306A, lit "a"); (0x306B, lit "i"); (0x306C, lit "u"); (0x306D, lit "e"); (0x306E, lit "o");
    (0x306F, lit "a"); (0x3072, lit "i"); (0x3075, lit "u"); (0x3078, lit "e"); (0x307B, lit "o");
    (* ba-row, pa-row, ma-row: the lips close first *)
    (0x3070, lit "na"); (0x3073, lit "ni"); (0x3076, lit "nu"); (0x3079, lit "ne"); (0x307C, lit "no");
    (0x3071, lit "na"); (0x3074, lit "ni"); (0x3077, lit "nu"); (0x307A, lit "ne"); (0x307D, lit "no");
    (0x307E, lit "na"); (0x307F, lit "ni"); (0x3080, lit "nu"); (0x3081, lit "ne"); (0x3082, lit "no");
    (* ya-row, ra-row, wa-row, n *)
    (0x3084, lit "a"); (0x3086, lit "u"); (0x3088, lit "o");
    (0x3089, lit "a"); (0x308A, lit "i"); (0x308B, lit "u"); (0x308C, lit "e"); (0x308D, lit "o");
    (0x308F, lit "a"); (0x3090, lit "i"); (0x3091, lit "e"); (0x3092, lit "o");
    (0x3093, lit "n");
    (* small ya, yu, yo; the geminate mark; the long-vowel mark *)
    (0x3083, lit "a"); (0x3085, lit "u"); (0x3087, lit "o");
    (0x3063, lit "-");
    (0x30FC, lit "-") ]%N.

(** [self.hiragana_phoneme_map]. The keys of the literal are pairwise
    distinct ([hiragana_phoneme_keys_NoDup]), so the order in which the
    items are stored is immaterial. *)
Definition hiragana_phoneme_map : gmap N pystr :=
  list_to_map hiragana_phoneme_items.

(** [hiragana_to_phoneme]: [self.hiragana_phoneme_map.get(hiragana_char, '-')]. *)
Definition hiragana_to_phoneme (hiragana_char : N) : pystr :=
  default (lit "-") (hiragana_phoneme_map !! hiragana_char).

(** The items of the dictionary literal [self.special_consonants]: a
    two-letter romaji syllable of the ma, ba or pa row and its code. *)
Definition special_consonant_items : list (pystr * pystr) :=
  [ (lit "ma", lit "na"); (lit "mi", lit "ni"); (lit "mu", lit "nu");
    (lit "me", lit "ne"); (lit "mo", lit "no");
    (lit "ba", lit "na"); (lit "bi", lit "ni"); (lit "bu", lit "nu");
    (lit "be", lit "ne"); (lit "bo", lit "no");
    (lit "pa", lit "na"); (lit "pi", lit "ni"); (lit "pu", lit "nu");
    (lit "pe", lit "ne"); (lit "po", lit "no") ].

(** [self.special_consonants]; its keys are pairwise distinct
    ([special_consonant_keys_NoDup]). *)
Definition special_consonants : gmap pystr pystr :=
  list_to_map special_consonant_items.

(** The literal [' \t\n.,。、-'] of [romaji_to_phoneme]. *)
Definition romaji_blanks : pystr :=
  [0x20; 0x09; 0x0A; 0x2E; 0x2C; 0x3002; 0x3001; 0x2D]%N.

(** The part of the loop body of [romaji_to_phoneme] that handles one
    character: what [phonemes] is after it. Other consonants are ignored. *)
Definition romaji_single (char : N) (phonemes : list pystr) : list pystr :=
  if str_in char (lit "aiueo") then phonemes ++ [[char]]
  else if N.eqb char 0x6E then phonemes ++ [lit "n"]
  else if str_in char romaji_blanks then phonemes ++ [lit "-"]
  else phonemes.

(** The [while i < len(romaji)] loop of [romaji_to_phoneme]. Every turn
    advances [i] by one or two, so [len(romaji)] turns are enough
    ([romaji_loop_fuel]); [fuel] bounds the number of turns. *)
Fixpoint romaji_loop (fuel : nat) (romaji : pystr) (i : nat)
  (phonemes : list pystr) : list pystr :=
  match fuel with
  | O => phonemes
  | S fuel' =>
      if i <? length romaji then
        let one_char :=
          match romaji !! i with
          | Some char => romaji_loop fuel' romaji (i + 1) (romaji_single char phonemes)
          | None => phonemes
          end in
        if i + 1 <? length romaji then
          let two_char := take 2 (drop i romaji) in
          match special_consonants !! two_char with
          | Some code => romaji_loop fuel' romaji (i + 2) (phonemes ++ [code])
          | None => one_char
          end
        else one_char
      else phonemes
  end.

(** [romaji_to_phoneme]. *)
Definition romaji_to_phoneme (romaji : pystr) : list pystr :=
  romaji_loop (length romaji) romaji 0 [].

(** The literal [' \t\n.,。、'] of [char_to_phoneme]. *)
Definition char_blanks : pystr :=
  [0x20; 0x09; 0x0A; 0x2E; 0x2C; 0x3002; 0x3001]%N.

(** [char_to_phoneme], for a string of one character: [None] is the
    Python [None] returned for a character that is skipped. *)
Definition char_to_phoneme (char : N) : option pystr :=
  if str_in char (lit "aiueo") then Some [char]
  else if N.eqb char 0x6E then Some (lit "n")
  else if str_in char char_blanks then Some (lit "-")
  else None.

(** [small_chars] of [count_mora]: small ya yu yo tsu, then the katakana
    small a i u e o, then the katakana small ya yu yo tsu. *)
Definition small_chars : pystr :=
  [0x3083; 0x3085; 0x3087; 0x3063;
   0x30A1; 0x30A3; 0x30A5; 0x30A7; 0x30A9;
   0x30E3; 0x30E5; 0x30E7; 0x30C3]%N.

(** The literal [' \t\n.,。、'] of [count_mora]. *)
Definition mora_blanks : pystr :=
  [0x20; 0x09; 0x0A; 0x2E; 0x2C; 0x3002; 0x3001]%N.

Fixpoint count_mora_loop (hiragana : pystr) (count : nat) : nat :=
  match hiragana with
  | [] => count
  | char :: rest =>
      count_mora_loop rest
        (if negb (str_in char small_chars) && negb (str_in char mora_blanks)
         then count + 1 else count)
  end.

(** [count_mora]. *)
Definition count_mora (hiragana : pystr) : nat := count_mora_loop hiragana 0.

(** The substitutions of [clean_rich_text], in the order the function
    applies them. [text t] is the literal [t]; [angle p] is [p[^>]*>];
    [square p] is [p[^\]]*\]]. *)
Definition tag_passes : list Re.pattern :=
  let text t := Re.Lit (lit t) in
  let angle p := Re.Upto (lit p) 0x3E%N in
  let square p := Re.Upto (lit p) 0x5D%N in
  [ [text "<b>"; text "</b>"];
    [text "<i>"; text "</i>"];
    [text "<u>"; text "</u>"];
    [text "<s>"; text "</s>"];
    [text "<sub>"; text "</sub>"];
    [text "<sup>"; text "</sup>"];
    [text "<mark>"; text "</mark>"];
    [text "<small>"; text "</small>"];
    [text "<nobr>"; text "</nobr>"];
    [angle "<color="; text "</color>"];
    [angle "<size="; text "</size>"];
    [angle "<font="; text "</font>"];
    [angle "<material="; text "</material>"];
    [angle "<quad="];
    [angle "<sprite="];
    [angle "<space="];
    [angle "<style="; text "</style>"];
    [angle "<align="; text "</align>"];
    [angle "<alpha="; text "</alpha>"];
    [angle "<cspace="; text "</cspace>"];
    [angle "<font-weight="; text "</font-weight>"];
    [angle "<indent="; text "</indent>"];
    [angle "<line-height="; text "</line-height>"];
    [angle "<line-indent="; text "</line-indent>"];
    [angle "<link="; text "</link>"];
    [text "<lowercase>"; text "</lowercase>"];
    [text "<uppercase>"; text "</uppercase>"];
    [text "<smallcaps>"; text "</smallcaps>"];
    [angle "<margin="; text "</margin>"];
    [angle "<monospace="; text "</monospace>"];
    [angle "<mspace="];
    [text "<noparse>"; text "</noparse>"];
    [text "<page>"];
    [angle "<pos="];
    [angle "<rotate="; text "</rotate>"];
    [text "<strikethrough>"; text "</strikethrough>"];
    [text "<underline>"; text "</underline>"];
    [angle "<voffset="; text "</voffset>"];
    [angle "<width="; text "</width>"];
    (* the bracket family *)
    [text "[shake]"; text "[/shake]"];
    [text "[bounce]"; text "[/bounce]"];
    [text "[fade]"; text "[/fade]"];
    [square "[voice="; text "[/voice]"];
    [square "[speed="; text "[/speed]"];
    [square "[wait="];
    [square "[emotion="; text "[/emotion]"] ].

(** [clean_rich_text]: [text = re.sub(p, '', text)] for each pattern in turn. *)
Definition clean_rich_text (text : pystr) : pystr :=
  foldl (λ text p, Re.sub p text) text tag_passes.

(** The characters [process_text] treats as punctuation: the two adjacent
    string literals of the membership test, concatenated. The ASCII double
    quote occurs twice; the ASCII apostrophe only delimits the literals. *)
Definition punctuation : pystr :=
  [0x2E; 0x2C; 0x3002; 0x3001; 0xFF01; 0xFF1F; 0x21; 0x3F;
   0xFF1B; 0x3B; 0xFF1A; 0x3A; 0x300C; 0x300D; 0x300E; 0x300F;
   0x28; 0x29; 0xFF08; 0xFF09; 0x5B; 0x5D; 0x3010; 0x3011;
   0x3008; 0x3009; 0x300A; 0x300B; 0x22; 0x22;
   0x2026; 0x2025; 0x30FB]%N.

(** The two lists [process_text] appends to. *)
Record buffers : Type := Buffers {
  phoneme_counts : list pystr;
  all_phonemes : list pystr
}.

(** The inner loop of [process_text]: the phonemes of one reading, with the
    kana that look up to ['-'] left out. *)
Fixpoint collect_phonemes (char_hiragana : pystr) (char_phonemes : list pystr)
  : list pystr :=
  match char_hiragana with
  | [] => char_phonemes
  | hiragana_char :: rest =>
      let phoneme := hiragana_to_phoneme hiragana_char in
      collect_phonemes rest
        (if bool_decide (phoneme ≠ lit "-")
         then char_phonemes ++ [phoneme] else char_phonemes)
  end.

(** The body of the outer loop of [process_text], for one character. *)
Definition process_char (conv : JapaneseConverter) (st : buffers) (char : N)
  : option buffers :=
  if str_in char punctuation then
    Some (Buffers (phoneme_counts st ++ [lit "1"]) (all_phonemes st ++ [lit "-"]))
  else
    char_hiragana ← to_hiragana conv [char];
    let char_phonemes := collect_phonemes char_hiragana [] in
    let phoneme_count :=
      match char_phonemes with [] => 1 | _ :: _ => length char_phonemes end in
    Some (Buffers
            (phoneme_counts st ++ [py_str phoneme_count])
            (match char_phonemes with
             | [] => all_phonemes st ++ [lit "-"]
             | _ :: _ => all_phonemes st ++ char_phonemes
             end)).

(** The outer loop: left to right, stopping at the first call that raises. *)
Fixpoint process_chars (conv : JapaneseConverter) (clean_text : pystr)
  (st : buffers) : option buffers :=
  match clean_text with
  | [] => Some st
  | char :: rest => st' ← process_char conv st char; process_chars conv rest st'
  end.

(** The character class [[\r\n\s]]. *)
Definition blank_class (c : N) : bool :=
  N.eqb c 0x0D || N.eqb c 0x0A || Re.isspace c.

(** [re.sub(r'[\r\n\s]', '', text)]. *)
Definition remove_blanks (text : pystr) : pystr :=
  Re.sub [Re.Class blank_class] text.

(** [process_text]: the pair [(count_str, phoneme_str)], or [None] when the
    backend raised. *)
Definition process_text (conv : JapaneseConverter) (text : pystr)
  : option (pystr * pystr) :=
  let text := clean_rich_text text in
  let clean_text := remove_blanks text in
  match clean_text with
  | [] => Some (lit "0", lit "-")
  | _ :: _ =>
      st ← process_chars conv clean_text (Buffers [] []);
      let count_str := join_empty (phoneme_counts st) in
      let phoneme_str :=
        match all_phonemes st with
        | [] => lit "-"
        | _ :: _ => str_join (lit ",") (all_phonemes st)
        end in
      Some (count_str, phoneme_str)
  end.

(** ** The row loop of [process_csv] *)

(** A cell of the script column as the loop sees it: [None] when
    [pd.isna(text)] holds, otherwise the string [str(text)]. *)
Abbreviation cell := (option pystr).

(** The two columns the loop of [process_csv] appends to. *)
Record columns : Type := Columns {
  phoneme_count_strings : list pystr;
  phoneme_strings : list pystr
}.

(** The body of [for text in script_column]. *)
Definition process_row (conv : JapaneseConverter) (cols : columns) (text : cell)
  : option columns :=
  match text with
  | None =>
      Some (Columns (phoneme_count_strings cols ++ [lit "0"])
                    (phoneme_strings cols ++ [lit "-"]))
  | Some text =>
      '(count_str, phonemes) ← process_text conv text;
      Some (Columns (phoneme_count_strings cols ++ [count_str])
                    (phoneme_strings cols ++ [phonemes]))
  end.

(** The loop over the script column; [None] when a conversion raised, in
    which case [process_csv] reports the error and writes nothing. *)
Fixpoint process_rows (conv : JapaneseConverter) (script_column : list cell)
  (cols : columns) : option columns :=
  match script_column with
  | [] => Some cols
  | text :: rest => cols' ← process_row conv cols text; process_rows conv rest cols'
  end.

(** * Notions the properties are stated with *)

(** ** Phoneme strings *)

(** The seven phoneme symbols. Together with the five codes below they
    are the twelve strings stored in the table or emitted as a fallback. *)
Definition phoneme_symbols : list pystr :=
  [lit "a"; lit "i"; lit "u"; lit "e"; lit "o"; lit "n"; lit "-"].

(** The five codes of the lip-closing rows. *)
Definition bilabial_codes : list pystr :=
  [lit "na"; lit "ni"; lit "nu"; lit "ne"; lit "no"].

(** The kana of the ba-row, the pa-row and the ma-row, each with the vowel
    it is spoken with. *)
Definition bilabial_rows : list (N * pystr) :=
  [ (0x3070, lit "a"); (0x3073, lit "i"); (0x3076, lit "u"); (0x3079, lit "e"); (0x307C, lit "o");
    (0x3071, lit "a"); (0x3074, lit "i"); (0x3077, lit "u"); (0x307A, lit "e"); (0x307D, lit "o");
    (0x307E, lit "a"); (0x307F, lit "i"); (0x3080, lit "u"); (0x3081, lit "e"); (0x3082, lit "o") ]%N.

(** ** The contribution of one character *)

(** What one character contributes under a backend [f] that never raises.
    [char_count] is the number whose decimal form is appended to
    [phoneme_counts] ([process_char_reading] ties both to the loop body). *)
Definition char_count (f : pystr → pystr) (char : N) : nat :=
  if str_in char punctuation then 1
  else match collect_phonemes (f [char]) [] with
       | [] => 1
       | (_ :: _) as char_phonemes => length char_phonemes
       end.

(** The strings one character appends to [all_phonemes]. *)
Definition char_tokens (f : pystr → pystr) (char : N) : list pystr :=
  if str_in char punctuation then [lit "-"]
  else match collect_phonemes (f [char]) [] with
       | [] => [lit "-"]
       | (_ :: _) as char_phonemes => char_phonemes
       end.

(** The two strings [process_text] assembles from a non-empty cleaned text. *)
Definition count_str_of (f : pystr → pystr) (clean_text : pystr) : pystr :=
  join_empty ((λ c, py_str (char_count f c)) <$> clean_text).

Definition phoneme_str_of (f : pystr → pystr) (clean_text : pystr) : pystr :=
  str_join (lit ",") (clean_text ≫= char_tokens f).

(** ** Mora counting as the specification words it *)

(** The small-kana set as the specification words it: small ya, yu, yo,
    tsu and their katakana counterparts. Whitespace and punctuation are read as the
    seven characters [count_mora] tests for. *)
Definition spec_small_kana : pystr :=
  [0x3083; 0x3085; 0x3087; 0x3063; 0x30E3; 0x30E5; 0x30E7; 0x30C3]%N.

(** The katakana small vowels a, i, u, e, o. *)
Definition small_katakana_vowels : pystr :=
  [0x30A1; 0x30A3; 0x30A5; 0x30A7; 0x30A9]%N.

(** The count the specification describes. *)
Definition count_mora_spec (hiragana : pystr) : nat :=
  length (filter (λ c, (c ∉ spec_small_kana) ∧ (c ∉ mora_blanks)) hiragana).

(** ** Texts whose markup is not nested *)

(** Tags are written with two bracket pairs. *)
Definition closer (o : N) : option N :=
  if N.eqb o 0x3C then Some 0x3E%N
  else if N.eqb o 0x5B then Some 0x5D%N
  else None.

(** An opening bracket of either pair. *)
Definition is_opener (c : N) : bool := N.eqb c 0x3C || N.eqb c 0x5B.

(** [cl] occurs in [s] at the last position and nowhere before. *)
Definition closed (cl : N) (s : pystr) : Prop :=
  Re.index_of cl s = Some (pred (length s)).

#[global] Instance closed_dec cl s : Decision (closed cl s).
Proof. unfold closed. apply _. Defined.

(** The shape every alternative of [tag_passes] has: an opening bracket,
    then either a literal that ends at the first closing bracket, or a
    bracket-free prefix followed by everything up to the closing bracket. *)
Definition tag_alt (a : Re.alt) : bool :=
  match a with
  | Re.Lit (o :: body) =>
      match closer o with
      | Some cl => bool_decide (closed cl body)
      | None => false
      end
  | Re.Upto (o :: pre) cl =>
      bool_decide (closer o = Some cl) && bool_decide (Re.index_of cl pre = None)
  | _ => false
  end.

(** A text cut into pieces: single characters, and bracketed groups
    [o :: body] such as [<b>], [<size=3>] or [<unknown>]. *)
Inductive piece : Type :=
  | Plain (c : N)
  | Markup (o : N) (body : pystr).

(** The text of one piece, and of a list of pieces. *)
Definition piece_text (pc : piece) : pystr :=
  match pc with
  | Plain c => [c]
  | Markup o body => o :: body
  end.

Definition flatten (pcs : list piece) : pystr := pcs ≫= piece_text.

(** Markup is not nested: a plain character is no opening bracket, and a
    group runs from its opening bracket to the first matching closing
    bracket without meeting another opening bracket. *)
Definition piece_ok (pc : piece) : bool :=
  match pc with
  | Plain c => negb (is_opener c)
  | Markup o body =>
      match closer o with
      | Some cl =>
          bool_decide (closed cl body) && forallb (λ c, negb (is_opener c)) body
      | None => false
      end
  end.

(** The pieces a pattern leaves in place. *)
Definition kept (p : Re.pattern) (pc : piece) : bool :=
  match pc with
  | Plain _ => true
  | Markup o body =>
      match Re.match_pattern p (o :: body) with
      | Some _ => false
      | None => true
      end
  end.

(** ** Romaji read syllable by syllable *)

(** The phonemes of a romaji string, by recursion on the string: a
    two-letter key of [special_consonants] gives its code, any other
    character is handled alone. [romaji_to_phoneme_scan] shows that the
    index loop computes this list. *)
Fixpoint romaji_phonemes (romaji : pystr) : list pystr :=
  match romaji with
  | [] => []
  | c :: rest =>
      match rest with
      | v :: rest' =>
          match special_consonants !! [c; v] with
          | Some code => code :: romaji_phonemes rest'
          | None => romaji_single c [] ++ romaji_phonemes rest
          end
      | [] => romaji_single c []
      end
  end.

(** The result of one row of the script column on its own. *)
Definition row_result (conv : JapaneseConverter) (text : cell)
  : option (pystr * pystr) :=
  match text with
  | None => Some (lit "0", lit "-")
  | Some text => process_text conv text
  end.

(** The hiragana between U+3041 and U+3093 that look up to ['-']: the small
    a, i, u, e, o, the geminate mark and the small wa. *)
Definition silent_hiragana : pystr :=
  [0x3041; 0x3043; 0x3045; 0x3047; 0x3049; 0x3063; 0x308E]%N.

(** The never-raising view of a backend: the empty reading where it
    raises. Where [conv] succeeds on every character that is looked up,
    [process_text] cannot tell the two apart ([process_chars_total]). *)
Definition reading_of (conv : JapaneseConverter) (text : pystr) : pystr :=
  default [] (to_hiragana conv text).

(** An ASCII digit. *)
Definition is_digit (c : N) : bool := N.leb 0x30 c && N.leb c 0x39.

(** ** The pipeline on small inputs *)

Example sub_demo :
  Re.sub [Re.Upto (lit "<color=") 0x3E%N; Re.Lit (lit "</color>")]
         (lit "a<color=red>b</color>c<color=") = lit "abc<color=".
Proof. reflexivity. Qed.

Example clean_demo :
  clean_rich_text (lit "<b>x</b>[wait=1.5]y<unknown>z<size=3>")
  = lit "xy<unknown>z".
Proof. vm_compute. reflexivity. Qed.

(** A backend that doubles every character: ha, a blank, a full stop, ma. *)
Example process_demo :
  process_text (reading (λ t, t ++ t)) [0x306F%N; 0x20%N; 0x3002%N; 0x307E%N]
  = Some (lit "212", [0x61; 0x2C; 0x61; 0x2C; 0x2D; 0x2C; 0x6E; 0x61; 0x2C; 0x6E; 0x61]%N).
Proof. vm_compute. reflexivity. Qed.

Example tag_passes_count : length tag_passes = 46.
Proof. reflexivity. Qed.

(** A reading of two kana, "ki" and small "ya", counts two phonemes. *)
Example kya_demo :
  process_text (reading (λ _, [0x304D; 0x3083]%N)) [0x5BA2%N]
  = Some (lit "2", lit "i,a").
Proof. vm_compute. reflexivity. Qed.

(** A reading made of the geminate mark alone falls back to one ["-"]. *)
Example geminate_demo :
  process_text (reading (λ _, [0x3063%N])) [0x5BA2%N] = Some (lit "1", lit "-").
Proof. vm_compute. reflexivity. Qed.

(** Romaji: "konbanha, mina" with the lip-closing syllables coded. *)
Example romaji_demo :
  romaji_to_phoneme (lit "konbanha, mina")
  = [lit "o"; lit "n"; lit "na"; lit "n"; lit "a"; lit "-"; lit "-"; lit "ni"; lit "n"; lit "a"].
Proof. vm_compute. reflexivity. Qed.

(** The backend raising on a character aborts the whole conversion. *)
Example raising_demo : process_text raising [0x3002; 0x5BA2]%N = None.
Proof. vm_compute. reflexivity. Qed.

(** * Theory *)

#[global] Arguments lit : simpl never.
#[global] Arguments py_str : simpl never.
#[global] Arguments hiragana_to_phoneme : simpl never.
#[global] Arguments clean_rich_text : simpl never.
#[global] Arguments remove_blanks : simpl never.
#[global] Arguments str_in : simpl never.

(** ** Strings *)

Lemma str_in_elem_of c s : str_in c s = true ↔ c ∈ s.
Proof.
  unfold str_in. rewrite existsb_exists. split.
  - intros (x & Hx & Heq). apply N.eqb_eq in Heq. subst x.
    by apply list_elem_of_In.
  - intros Hc. exists c. split; [by apply list_elem_of_In | apply N.eqb_refl].
Qed.

Lemma str_in_false c s : str_in c s = false ↔ c ∉ s.
Proof.
  rewrite <- str_in_elem_of. destruct (str_in c s); split; congruence.
Qed.

Lemma str_split_nonempty sep s : str_split sep s ≠ [].
Proof.
  destruct s as [|c s]; simpl; [done|].
  destruct (N.eqb c sep); [done|]. by destruct (str_split sep s).
Qed.

(** A run without separator splits into itself. *)
Lemma str_split_run sep t : sep ∉ t → str_split sep t = [t].
Proof.
  induction t as [|c t IH]; intros Hsep; [done|].
  apply not_elem_of_cons in Hsep as [Hne Hsep]. simpl.
  destruct (N.eqb_spec c sep) as [->|_]; [done|]. by rewrite IH.
Qed.

Lemma str_split_app sep t s :
  sep ∉ t → str_split sep (t ++ sep :: s) = t :: str_split sep s.
Proof.
  induction t as [|c t IH]; intros Hsep; simpl.
  - by rewrite N.eqb_refl.
  - apply not_elem_of_cons in Hsep as [Hne Hsep].
    destruct (N.eqb_spec c sep) as [->|_]; [done|]. by rewrite IH.
Qed.

(** Splitting undoes joining when no part contains the separator. *)
Lemma str_split_join sep parts :
  parts ≠ [] → Forall (λ t, sep ∉ t) parts →
  str_split sep (str_join [sep] parts) = parts.
Proof.
  induction parts as [|t parts IH]; intros Hne Hall; [done|].
  apply Forall_cons in Hall as [Ht Hall].
  destruct parts as [|t' parts].
  - simpl. by apply str_split_run.
  - change (str_join [sep] (t :: t' :: parts))
      with (t ++ sep :: str_join [sep] (t' :: parts)).
    rewrite str_split_app by done. f_equal. by apply IH.
Qed.

(** [str] of a one-digit number is that digit. *)
Lemma py_str_digit n : n ≤ 9 → py_str n = [(0x30 + N.of_nat n)%N].
Proof.
  intros Hn. do 10 (destruct n as [|n]; [reflexivity|]). lia.
Qed.

Lemma uint_digits_revapp d acc :
  length (uint_digits (Decimal.revapp d acc))
  = length (uint_digits d) + length (uint_digits acc).
Proof.
  revert acc. induction d; intros acc; simpl; [done | rewrite IHd; simpl; lia ..].
Qed.

Lemma to_little_uint_digits n acc :
  uint_digits acc ≠ [] → uint_digits (Nat.to_little_uint n acc) ≠ [].
Proof.
  revert acc. induction n as [|n IH]; intros acc Hacc; simpl; [done|].
  apply IH. destruct acc; simpl; congruence.
Qed.

Lemma py_str_nonempty n : py_str n ≠ [].
Proof.
  unfold py_str, Nat.to_uint, Decimal.rev. intros Hnil.
  apply (f_equal length) in Hnil. rewrite uint_digits_revapp in Hnil.
  assert (uint_digits (Nat.to_little_uint n Decimal.zero) ≠ []) as Hne
    by (by apply to_little_uint_digits).
  destruct (uint_digits (Nat.to_little_uint n Decimal.zero)); [done|].
  simpl in Hnil. lia.
Qed.

(** ** Blank removal *)

(** Substituting a one-character class away keeps exactly the characters
    outside the class. *)
Lemma sub_class cls s :
  Re.sub [Re.Class cls] s = filter (λ c, cls c = false) s.
Proof.
  unfold Re.sub. induction s as [|c s IH]; [done|].
  rewrite filter_cons. cbn [Re.sub_scan Re.match_pattern Re.match_alt].
  destruct (cls c) eqn:Hc.
  - rewrite decide_False by done. exact IH.
  - rewrite decide_True by done. by rewrite IH.
Qed.

Lemma remove_blanks_filter text :
  remove_blanks text = filter (λ c, blank_class c = false) text.
Proof. apply sub_class. Qed.

Lemma remove_blanks_all_blank text :
  Forall (λ c, blank_class c = true) text → remove_blanks text = [].
Proof.
  rewrite remove_blanks_filter. induction 1 as [|c text Hc _ IH]; [done|].
  rewrite filter_cons, decide_False by congruence. exact IH.
Qed.

(** ** The phoneme table *)

Lemma hiragana_phoneme_keys_NoDup : NoDup hiragana_phoneme_items.*1.
Proof. apply (bool_decide_unpack _). vm_compute. reflexivity. Qed.

Lemma hiragana_phoneme_values g v :
  hiragana_phoneme_map !! g = Some v → v ∈ phoneme_symbols ++ bilabial_codes.
Proof.
  intros Hg. apply elem_of_list_to_map_2 in Hg.
  assert (Forall (λ kv, kv.2 ∈ phoneme_symbols ++ bilabial_codes)
            hiragana_phoneme_items) as Hall.
  { apply (bool_decide_unpack _). vm_compute. reflexivity. }
  rewrite Forall_forall in Hall. exact (Hall _ Hg).
Qed.

Lemma hiragana_to_phoneme_range g :
  hiragana_to_phoneme g ∈ phoneme_symbols ++ bilabial_codes.
Proof.
  unfold hiragana_to_phoneme.
  destruct (hiragana_phoneme_map !! g) as [v|] eqn:Hg; simpl.
  - by eapply hiragana_phoneme_values.
  - apply (bool_decide_unpack _). vm_compute. reflexivity.
Qed.

Lemma symbols_comma_free t :
  t ∈ phoneme_symbols ++ bilabial_codes → 0x2C%N ∉ t.
Proof.
  intros Ht.
  assert (Forall (λ t : pystr, 0x2C%N ∉ t) (phoneme_symbols ++ bilabial_codes))
    as Hall by (apply (bool_decide_unpack _); vm_compute; reflexivity).
  rewrite Forall_forall in Hall. by apply Hall.
Qed.

(** From here on the table is data: proofs go through the lemmas above and
    never unfold it by simplification. *)
#[global] Opaque hiragana_phoneme_map.

(** ** One character of [process_text] *)

(** The inner loop appends, in order, the looked-up strings other than ['-']. *)
Lemma collect_phonemes_filter hira acc :
  collect_phonemes hira acc
  = acc ++ filter (λ p, p ≠ lit "-") (hiragana_to_phoneme <$> hira).
Proof.
  revert acc. induction hira as [|h hira IH]; intros acc; simpl.
  - by rewrite app_nil_r.
  - rewrite IH, filter_cons. case_bool_decide; case_decide; try done.
    by rewrite <- app_assoc.
Qed.

Lemma collect_phonemes_range hira :
  Forall (λ p, p ∈ phoneme_symbols ++ bilabial_codes) (collect_phonemes hira []).
Proof.
  rewrite collect_phonemes_filter. simpl. apply Forall_forall.
  intros p [_ Hp]%list_elem_of_filter.
  apply list_elem_of_fmap in Hp as (h & -> & _). apply hiragana_to_phoneme_range.
Qed.

Lemma process_char_reading f st char :
  process_char (reading f) st char
  = Some (Buffers (phoneme_counts st ++ [py_str (char_count f char)])
                  (all_phonemes st ++ char_tokens f char)).
Proof.
  unfold process_char, char_count, char_tokens.
  destruct (str_in char punctuation); [reflexivity|]. simpl.
  destruct (collect_phonemes (f [char]) []); reflexivity.
Qed.

Lemma process_chars_reading f clean_text st :
  process_chars (reading f) clean_text st
  = Some (Buffers
            (phoneme_counts st ++ ((λ c, py_str (char_count f c)) <$> clean_text))
            (all_phonemes st ++ (clean_text ≫= char_tokens f))).
Proof.
  revert st. induction clean_text as [|c cs IH]; intros st.
  - simpl. rewrite !app_nil_r. by destruct st.
  - cbn [process_chars]. rewrite process_char_reading. simpl.
    rewrite IH. simpl. by rewrite <- !app_assoc.
Qed.

Lemma char_tokens_length f char : length (char_tokens f char) = char_count f char.
Proof.
  unfold char_tokens, char_count.
  destruct (str_in char punctuation); [done|].
  by destruct (collect_phonemes (f [char]) []).
Qed.

Lemma char_count_pos f char : 1 ≤ char_count f char.
Proof.
  unfold char_count. destruct (str_in char punctuation); [done|].
  destruct (collect_phonemes (f [char]) []); simpl; lia.
Qed.

Lemma char_tokens_range f char :
  Forall (λ p, p ∈ phoneme_symbols ++ bilabial_codes) (char_tokens f char).
Proof.
  unfold char_tokens. destruct (str_in char punctuation).
  - apply Forall_singleton. set_solver.
  - pose proof (collect_phonemes_range (f [char])) as Hr.
    destruct (collect_phonemes (f [char]) []); [|done].
    apply Forall_singleton. set_solver.
Qed.

Lemma bind_tokens_length f clean_text :
  length (clean_text ≫= char_tokens f) = sum_list (char_count f <$> clean_text).
Proof.
  induction clean_text as [|c cs IH]; [done|].
  rewrite bind_cons, length_app, char_tokens_length, IH. done.
Qed.

Lemma bind_tokens_nonempty f c cs : (c :: cs) ≫= char_tokens f ≠ [].
Proof.
  intros Hnil. apply (f_equal length) in Hnil.
  rewrite bind_tokens_length in Hnil. simpl in Hnil.
  pose proof (char_count_pos f c). lia.
Qed.

(** ** The whole text, for a backend that never raises *)

Lemma process_text_reading f text :
  process_text (reading f) text
  = Some (match remove_blanks (clean_rich_text text) with
          | [] => (lit "0", lit "-")
          | (_ :: _) as clean_text =>
              (count_str_of f clean_text, phoneme_str_of f clean_text)
          end).
Proof.
  unfold process_text. destruct (remove_blanks _) as [|c cs] eqn:Hclean; [done|].
  rewrite process_chars_reading. simpl.
  pose proof (bind_tokens_nonempty f c cs) as Hne. rewrite bind_cons in Hne.
  unfold count_str_of, phoneme_str_of. rewrite bind_cons.
  by destruct (char_tokens f c ++ _).
Qed.

Lemma phoneme_str_split f clean_text :
  clean_text ≠ [] →
  str_split 0x2C%N (phoneme_str_of f clean_text) = clean_text ≫= char_tokens f.
Proof.
  intros Hne. unfold phoneme_str_of. apply str_split_join.
  - destruct clean_text; [done | apply bind_tokens_nonempty].
  - apply Forall_forall. intros t Ht. apply symbols_comma_free.
    apply list_elem_of_bind in Ht as (c & Ht & _).
    pose proof (char_tokens_range f c) as Hr. rewrite Forall_forall in Hr. auto.
Qed.

Lemma count_str_one_digit f clean_text :
  (∀ c, c ∈ clean_text → char_count f c ≤ 9) →
  count_str_of f clean_text
  = (λ c, (0x30 + N.of_nat (char_count f c))%N) <$> clean_text.
Proof.
  unfold count_str_of, join_empty.
  induction clean_text as [|c cs IH]; intros Hsmall; [done|].
  rewrite !fmap_cons, concat_cons, py_str_digit by (apply Hsmall; left).
  rewrite IH; [done|]. intros c' Hc'. apply Hsmall. by right.
Qed.

Lemma count_str_length_ge f clean_text :
  length clean_text ≤ length (count_str_of f clean_text).
Proof.
  unfold count_str_of, join_empty.
  induction clean_text as [|c cs IH]; [done|].
  rewrite fmap_cons, concat_cons, length_app. simpl.
  pose proof (py_str_nonempty (char_count f c)).
  destruct (py_str (char_count f c)); [done | simpl; lia].
Qed.

(** * Properties of the specification *)

(** ** C10: counts and tokens stay aligned *)

(** C10. For every text whose cleaned form is not empty and every backend
    that never raises, [process_text] returns a result in which the count
    string is the concatenation of the per-character counts, the phoneme
    stream splits at the commas into the concatenation of the per-character
    token lists, every character contributes at least one token and exactly
    as many tokens as its count says; hence the counts sum up to the number
    of comma-separated tokens of the stream. *)
Theorem counts_match_tokens (f : pystr → pystr) (text : pystr)
  (Hclean : remove_blanks (clean_rich_text text) ≠ []) :
  ∃ count_str phoneme_str,
    process_text (reading f) text = Some (count_str, phoneme_str)
    ∧ count_str
      = join_empty ((λ c, py_str (char_count f c))
                      <$> remove_blanks (clean_rich_text text))
    ∧ str_split 0x2C%N phoneme_str
      = remove_blanks (clean_rich_text text) ≫= char_tokens f
    ∧ Forall (λ c, 1 ≤ length (char_tokens f c) ∧
                   length (char_tokens f c) = char_count f c)
        (remove_blanks (clean_rich_text text))
    ∧ sum_list (char_count f <$> remove_blanks (clean_rich_text text))
      = length (str_split 0x2C%N phoneme_str).
Proof.
  rewrite process_text_reading.
  destruct (remove_blanks (clean_rich_text text)) as [|c cs] eqn:Hc; [done|].
  exists (count_str_of f (c :: cs)), (phoneme_str_of f (c :: cs)).
  rewrite phoneme_str_split by done.
  repeat split; try done.
  - apply Forall_forall. intros c' _. rewrite char_tokens_length.
    split; [apply char_count_pos | done].
  - by rewrite bind_tokens_length.
Qed.

Lemma counts_match_tokens_witness :
  ∃ count_str phoneme_str,
    process_text (reading (λ t, t)) [0x307E; 0x3002]%N
    = Some (count_str, phoneme_str)
    ∧ count_str
      = join_empty ((λ c, py_str (char_count (λ t, t) c))
                      <$> remove_blanks (clean_rich_text [0x307E; 0x3002]%N))
    ∧ str_split 0x2C%N phoneme_str
      = remove_blanks (clean_rich_text [0x307E; 0x3002]%N)
          ≫= char_tokens (λ t, t)
    ∧ Forall (λ c, 1 ≤ length (char_tokens (λ t, t) c) ∧
                   length (char_tokens (λ t, t) c) = char_count (λ t, t) c)
        (remove_blanks (clean_rich_text [0x307E; 0x3002]%N))
    ∧ sum_list (char_count (λ t, t)
                  <$> remove_blanks (clean_rich_text [0x307E; 0x3002]%N))
      = length (str_split 0x2C%N phoneme_str).
Proof.
  apply (counts_match_tokens (λ t, t) [0x307E; 0x3002]%N).
  vm_compute. discriminate.
Defined.

(** ** C2: the tokens of the phoneme stream *)

(** C2, as stated, fails: read as itself, the kana "ma" gives the stream
    [na], which is not ["-"] and whose only token is none of the seven
    symbols. *)
Lemma phoneme_stream_seven_symbols_fails :
  process_text (reading (λ t, t)) [0x307E%N] = Some (lit "1", lit "na")
  ∧ lit "na" ≠ lit "-"
  ∧ ¬ Forall (λ t, t ∈ phoneme_symbols) (str_split 0x2C%N (lit "na")).
Proof.
  split; [vm_compute; reflexivity|]. split; [discriminate|].
  intros Hall. apply (bool_decide_pack _) in Hall. vm_compute in Hall. done.
Qed.

(** C2, amended. For every text and every backend that never raises,
    [process_text] returns a phoneme stream whose comma-separated tokens
    are each one of the seven symbols a, i, u, e, o, n, - or one of the five
    two-letter lip-closing codes na, ni, nu, ne, no (the sentinel ["-"] is
    the case of the single token -). *)
Theorem phoneme_stream_tokens (f : pystr → pystr) (text : pystr) :
  ∃ count_str phoneme_str,
    process_text (reading f) text = Some (count_str, phoneme_str)
    ∧ Forall (λ t, t ∈ phoneme_symbols ++ bilabial_codes)
        (str_split 0x2C%N phoneme_str).
Proof.
  rewrite process_text_reading.
  destruct (remove_blanks (clean_rich_text text)) as [|c cs] eqn:Hc.
  - exists (lit "0"), (lit "-"). split; [done|].
    apply (bool_decide_unpack _). vm_compute. reflexivity.
  - exists (count_str_of f (c :: cs)), (phoneme_str_of f (c :: cs)).
    split; [done|]. rewrite phoneme_str_split by done.
    apply Forall_forall. intros t (c' & Ht & _)%list_elem_of_bind.
    pose proof (char_tokens_range f c') as Hr. rewrite Forall_forall in Hr. auto.
Qed.

(** ** C3: the length of the count string *)

(** C3, as stated, fails: a backend may read one character as ten kana, the
    count ["10"] then takes two characters of the count string for the one
    character of the cleaned text. *)
Lemma count_digits_length_fails :
  process_text (reading (λ _, replicate 10 0x3042%N)) (lit "x")
  = Some (lit "10", lit "a,a,a,a,a,a,a,a,a,a")
  ∧ remove_blanks (clean_rich_text (lit "x")) = lit "x"
  ∧ length (lit "10") ≠ length (lit "x").
Proof. split; [|split]; vm_compute; [reflexivity | reflexivity | discriminate]. Qed.

(** C3, amended. For every text and every backend that never raises under
    which no character of the cleaned text yields more than nine phonemes,
    the count string has one character per character of the cleaned text,
    except that it is ["0"] when the cleaned text is empty. *)
Theorem count_digits_length (f : pystr → pystr) (text : pystr)
  (Hsmall : ∀ c, c ∈ remove_blanks (clean_rich_text text) → char_count f c ≤ 9) :
  ∃ count_str phoneme_str,
    process_text (reading f) text = Some (count_str, phoneme_str)
    ∧ match remove_blanks (clean_rich_text text) with
      | [] => count_str = lit "0"
      | (_ :: _) as clean_text => length count_str = length clean_text
      end.
Proof.
  rewrite process_text_reading.
  destruct (remove_blanks (clean_rich_text text)) as [|c cs] eqn:Hc.
  - by exists (lit "0"), (lit "-").
  - exists (count_str_of f (c :: cs)), (phoneme_str_of f (c :: cs)).
    split; [done|]. rewrite count_str_one_digit by done. by rewrite length_fmap.
Qed.

Lemma count_digits_length_witness :
  ∃ count_str phoneme_str,
    process_text (reading (λ t, t)) [0x306F; 0x3002]%N
    = Some (count_str, phoneme_str)
    ∧ match remove_blanks (clean_rich_text [0x306F; 0x3002]%N) with
      | [] => count_str = lit "0"
      | (_ :: _) as clean_text => length count_str = length clean_text
      end.
Proof.
  apply (count_digits_length (λ t, t) [0x306F; 0x3002]%N).
  apply Forall_forall. apply (bool_decide_unpack _). vm_compute. reflexivity.
Defined.

(** ** C4: every count is at least one *)

(** C4, as stated, fails: with a backend that reads one character as twenty
    kana the count string is ["20"], and its second digit is 0. *)
Lemma count_digits_positive_fails :
  process_text (reading (λ _, replicate 20 0x3044%N)) (lit "y")
  = Some (lit "20", str_join (lit ",") (replicate 20 (lit "i")))
  ∧ remove_blanks (clean_rich_text (lit "y")) ≠ []
  ∧ 0x30%N ∈ lit "20".
Proof.
  split; [vm_compute; reflexivity|]. split; [vm_compute; discriminate|].
  apply (bool_decide_unpack _). vm_compute. reflexivity.
Qed.

(** C4, amended. For every text whose cleaned form is not empty and every
    backend that never raises, the count string is the concatenation of the
    decimal forms of the per-character counts and every such count is at
    least 1, so that every digit is between 1 and 9 whenever no character
    yields more than nine phonemes. When every kana of the reading of a
    character that is not punctuation looks up to ['-'], the loop body
    appends the count ["1"] and the single phoneme ["-"]. *)
Theorem counts_at_least_one (f : pystr → pystr) (text : pystr)
  (Hclean : remove_blanks (clean_rich_text text) ≠ []) :
  ∃ count_str phoneme_str,
    process_text (reading f) text = Some (count_str, phoneme_str)
    ∧ count_str
      = join_empty ((λ c, py_str (char_count f c))
                      <$> remove_blanks (clean_rich_text text))
    ∧ Forall (λ c, 1 ≤ char_count f c) (remove_blanks (clean_rich_text text))
    ∧ ((∀ c, c ∈ remove_blanks (clean_rich_text text) → char_count f c ≤ 9) →
       Forall (λ d, (0x31 ≤ d ≤ 0x39)%N) count_str)
    ∧ (∀ st char,
         str_in char punctuation = false →
         Forall (λ h, hiragana_to_phoneme h = lit "-") (f [char]) →
         process_char (reading f) st char
         = Some (Buffers (phoneme_counts st ++ [lit "1"])
                         (all_phonemes st ++ [lit "-"]))).
Proof.
  rewrite process_text_reading.
  destruct (remove_blanks (clean_rich_text text)) as [|c cs] eqn:Hc; [done|].
  exists (count_str_of f (c :: cs)), (phoneme_str_of f (c :: cs)).
  repeat split; try done.
  - apply Forall_forall. intros c' _. apply char_count_pos.
  - intros Hsmall. rewrite count_str_one_digit by done.
    apply Forall_fmap, Forall_forall. intros c' Hc'. simpl.
    pose proof (char_count_pos f c'). specialize (Hsmall c' Hc'). lia.
  - intros st char Hpunct Hdash. unfold process_char. rewrite Hpunct. simpl.
    rewrite collect_phonemes_filter. simpl.
    replace (filter _ _) with (@nil pystr); [reflexivity|].
    symmetry. induction Hdash as [|h hs Hh _ IH]; [done|].
    rewrite fmap_cons, filter_cons, decide_False by (by rewrite Hh; intros []).
    exact IH.
Qed.

Lemma counts_at_least_one_witness :
  ∃ count_str phoneme_str,
    process_text (reading (λ t, t)) [0x3063; 0x307D]%N
    = Some (count_str, phoneme_str)
    ∧ count_str
      = join_empty ((λ c, py_str (char_count (λ t, t) c))
                      <$> remove_blanks (clean_rich_text [0x3063; 0x307D]%N))
    ∧ Forall (λ c, 1 ≤ char_count (λ t, t) c)
        (remove_blanks (clean_rich_text [0x3063; 0x307D]%N))
    ∧ ((∀ c, c ∈ remove_blanks (clean_rich_text [0x3063; 0x307D]%N) →
             char_count (λ t, t) c ≤ 9) →
       Forall (λ d, (0x31 ≤ d ≤ 0x39)%N) count_str)
    ∧ (∀ st char,
         str_in char punctuation = false →
         Forall (λ h, hiragana_to_phoneme h = lit "-") ((λ t, t) [char]) →
         process_char (reading (λ t, t)) st char
         = Some (Buffers (phoneme_counts st ++ [lit "1"])
                         (all_phonemes st ++ [lit "-"]))).
Proof.
  apply (counts_at_least_one (λ t, t) [0x3063; 0x307D]%N).
  vm_compute. discriminate.
Defined.

(** ** Tag stripping on texts whose markup is not nested *)

Lemma closed_cons cl a s :
  closed cl (a :: s) → if N.eqb a cl then s = [] else closed cl s.
Proof.
  unfold closed. simpl. destruct (N.eqb a cl).
  - intros [= Hlen]. by destruct s.
  - destruct (Re.index_of cl s) as [i|]; [|done]. simpl. intros [= Hlen].
    by rewrite <- Hlen.
Qed.

Lemma closed_nonempty cl s : closed cl s → s ≠ [].
Proof. by intros Hc ->. Qed.

(** A literal that ends at its first closing bracket matches a group only
    as a whole, whatever follows the group. *)
Lemma lit_rest cl lb tb rest :
  closed cl lb → closed cl tb →
  Re.starts_with lb (tb ++ rest) = Re.starts_with lb tb
  ∧ (Re.starts_with lb tb = true → length lb = length tb).
Proof.
  revert tb. induction lb as [|a lb IH]; intros tb Hl Ht.
  { by apply closed_nonempty in Hl. }
  destruct tb as [|b tb]; [by apply closed_nonempty in Ht|].
  simpl. destruct (N.eqb_spec a b) as [->|Hab]; simpl; [|done].
  apply closed_cons in Hl. apply closed_cons in Ht.
  destruct (N.eqb b cl).
  - subst lb tb. done.
  - destruct (IH tb Hl Ht) as [Heq Hlen]. split; [done|].
    intros Hs. by rewrite Hlen.
Qed.

Lemma index_of_closed_app cl tb rest :
  closed cl tb → Re.index_of cl (tb ++ rest) = Some (pred (length tb)).
Proof.
  induction tb as [|b tb IH]; intros Ht; [by apply closed_nonempty in Ht|].
  apply closed_cons in Ht. simpl. destruct (N.eqb b cl).
  - by subst tb.
  - rewrite IH by done. destruct tb; [by apply closed_nonempty in Ht | done].
Qed.

(** A prefix without closing bracket followed by [[^cl]*cl] matches a
    group only as a whole, whatever follows the group. *)
Lemma upto_rest cl pb tb rest :
  Re.index_of cl pb = None → closed cl tb →
  Re.starts_with pb (tb ++ rest) = Re.starts_with pb tb
  ∧ (Re.starts_with pb tb = true →
     Re.index_of cl (drop (length pb) (tb ++ rest))
     = Some (pred (length tb - length pb))
     ∧ Re.index_of cl (drop (length pb) tb)
       = Some (pred (length tb - length pb))
     ∧ length pb < length tb).
Proof.
  revert tb. induction pb as [|a pb IH]; intros tb Hp Ht.
  - simpl. split; [done|]. intros _. rewrite Nat.sub_0_r.
    split; [by apply index_of_closed_app|].
    split; [done | destruct tb; [by apply closed_nonempty in Ht | simpl; lia]].
  - destruct tb as [|b tb]; [by apply closed_nonempty in Ht|].
    simpl in Hp. destruct (N.eqb_spec a cl) as [->|Hacl]; [done|].
    destruct (Re.index_of cl pb) eqn:Hpb; [done|].
    simpl. destruct (N.eqb_spec a b) as [->|Hab]; simpl; [|done].
    apply closed_cons in Ht. destruct (N.eqb_spec b cl) as [->|_]; [done|].
    destruct (IH tb eq_refl Ht) as [Heq Hidx]. split; [done|].
    intros Hs. destruct (Hidx Hs) as (H1 & H2 & H3). repeat split; [done|done|lia].
Qed.

Lemma closer_is_opener o cl : closer o = Some cl → is_opener o = true.
Proof.
  unfold closer, is_opener.
  destruct (N.eqb o 0x3C); [done|]. by destruct (N.eqb o 0x5B).
Qed.

(** At a bracketed group, an alternative of tag shape either matches the
    whole group or does not match, and what follows the group plays no
    part. *)
Lemma match_alt_markup a o cl tb rest :
  tag_alt a = true → closer o = Some cl → closed cl tb →
  Re.match_alt a (o :: tb ++ rest) = Re.match_alt a (o :: tb)
  ∧ (∀ n, Re.match_alt a (o :: tb) = Some n → n = S (length tb)).
Proof.
  intros Ha Ho Ht. destruct a as [[|o' lb]|[|o' pb] cl'|cls]; try done; simpl in Ha.
  - destruct (closer o') as [cl'|] eqn:Ho'; [|done].
    apply bool_decide_eq_true in Ha. simpl.
    destruct (N.eqb_spec o' o) as [->|Hne]; simpl; [|done].
    assert (cl' = cl) as -> by congruence.
    destruct (lit_rest cl lb tb rest Ha Ht) as [-> Hlen].
    split; [done|]. intros n. destruct (Re.starts_with lb tb); [|done].
    intros [= <-]. by rewrite Hlen.
  - apply andb_true_iff in Ha as [Hcl Hpb].
    apply bool_decide_eq_true in Hcl. apply bool_decide_eq_true in Hpb.
    cbn [Re.match_alt Re.starts_with].
    destruct (N.eqb_spec o' o) as [->|Hne]; simpl; [|done].
    assert (cl' = cl) as -> by congruence.
    destruct (upto_rest cl pb tb rest Hpb Ht) as [-> Hidx].
    destruct (Re.starts_with pb tb); [|done].
    destruct (Hidx eq_refl) as (-> & -> & Hlt). simpl.
    split; [done|]. intros n [= <-]. lia.
Qed.

Lemma match_alt_plain a c rest :
  tag_alt a = true → is_opener c = false → Re.match_alt a (c :: rest) = None.
Proof.
  intros Ha Hc. destruct a as [[|o lb]|[|o pb] cl|cls]; try done; simpl in Ha.
  - destruct (closer o) as [cl|] eqn:Ho; [|done].
    apply closer_is_opener in Ho. simpl.
    destruct (N.eqb_spec o c) as [->|_]; [congruence | done].
  - apply andb_true_iff in Ha as [Ho%bool_decide_eq_true _].
    apply closer_is_opener in Ho. cbn [Re.match_alt Re.starts_with].
    destruct (N.eqb_spec o c) as [->|_]; [congruence | done].
Qed.

Lemma match_pattern_markup p o cl tb rest :
  Forall (λ a, tag_alt a = true) p → closer o = Some cl → closed cl tb →
  Re.match_pattern p (o :: tb ++ rest) = Re.match_pattern p (o :: tb)
  ∧ (∀ n, Re.match_pattern p (o :: tb) = Some n → n = S (length tb)).
Proof.
  intros Hp Ho Ht. induction Hp as [|a p Ha _ IH]; [done|].
  cbn [Re.match_pattern].
  destruct (match_alt_markup a o cl tb rest Ha Ho Ht) as [-> Hn].
  destruct (Re.match_alt a (o :: tb)) as [n|]; [|exact IH].
  split; [done|]. intros n' [= <-]. by apply Hn.
Qed.

Lemma match_pattern_plain p c rest :
  Forall (λ a, tag_alt a = true) p → is_opener c = false →
  Re.match_pattern p (c :: rest) = None.
Proof.
  intros Hp Hc. induction Hp as [|a p Ha _ IH]; [done|].
  cbn [Re.match_pattern]. by rewrite match_alt_plain.
Qed.

(** ** The scanner on pieces *)

Lemma sub_scan_skip p a b : Re.sub_scan p (length a) (a ++ b) = Re.sub_scan p 0 b.
Proof. induction a as [|c a IH]; [done | exact IH]. Qed.

Lemma sub_scan_plain p body rest :
  Forall (λ a, tag_alt a = true) p →
  forallb (λ c, negb (is_opener c)) body = true →
  Re.sub_scan p 0 (body ++ rest) = body ++ Re.sub_scan p 0 rest.
Proof.
  intros Hp. induction body as [|c body IH]; intros Hbody; [done|].
  simpl in Hbody. apply andb_true_iff in Hbody as [Hc Hbody].
  apply negb_true_iff in Hc.
  change ((c :: body) ++ rest) with (c :: (body ++ rest)).
  cbn [Re.sub_scan]. rewrite match_pattern_plain by done.
  by rewrite IH.
Qed.

(** One substitution removes the groups its pattern matches and leaves
    every other piece in place. *)
Lemma sub_pieces p pcs :
  Forall (λ a, tag_alt a = true) p → Forall (λ pc, piece_ok pc = true) pcs →
  Re.sub p (flatten pcs) = flatten (filter (λ pc, kept p pc = true) pcs).
Proof.
  intros Hp Hpcs. unfold Re.sub, flatten.
  induction Hpcs as [|pc pcs Hpc _ IH]; [done|].
  rewrite bind_cons, filter_cons. destruct pc as [c|o body].
  - simpl in Hpc. apply negb_true_iff in Hpc.
    rewrite decide_True by done. rewrite bind_cons.
    cbn [piece_text app Re.sub_scan]. rewrite match_pattern_plain by done.
    by rewrite IH.
  - simpl in Hpc. destruct (closer o) as [cl|] eqn:Ho; [|done].
    apply andb_true_iff in Hpc as [Hcl%bool_decide_eq_true Hbody].
    cbn [piece_text kept].
    change ((o :: body) ++ ?r) with (o :: (body ++ r)).
    cbn [Re.sub_scan].
    destruct (match_pattern_markup p o cl body (pcs ≫= piece_text) Hp Ho Hcl)
      as [-> Hn].
    destruct (Re.match_pattern p (o :: body)) as [n|].
    + rewrite (Hn n eq_refl), decide_False by done.
      by rewrite sub_scan_skip.
    + rewrite decide_True by done. rewrite bind_cons. cbn [piece_text].
      rewrite sub_scan_plain by done. by rewrite IH.
Qed.

Lemma tag_passes_shape :
  Forall (Forall (λ a, tag_alt a = true)) tag_passes.
Proof. apply (bool_decide_unpack _). vm_compute. reflexivity. Qed.

(** All substitutions together keep the pieces that no pattern matches. *)
Lemma clean_rich_text_pieces pcs :
  Forall (λ pc, piece_ok pc = true) pcs →
  clean_rich_text (flatten pcs)
  = flatten (filter (λ pc, Forall (λ p, kept p pc = true) tag_passes) pcs).
Proof.
  unfold clean_rich_text. pose proof tag_passes_shape as Hshape.
  revert pcs Hshape. generalize tag_passes.
  induction l as [|p ps IH]; intros pcs _Hs Hpcs.
  - simpl. f_equal. symmetry. clear. induction pcs as [|pc pcs IHp]; [done|].
    rewrite filter_cons. rewrite decide_True by constructor. by rewrite IHp.
  - apply Forall_cons in _Hs as [Hp Hps]. cbn [foldl].
    rewrite sub_pieces by done.
    rewrite IH; [|done|].
    + f_equal. clear. induction pcs as [|pc pcs IHp]; [done|].
      rewrite !filter_cons. destruct (decide (kept p pc = true)) as [Hk|Hk].
      * rewrite filter_cons. rewrite IHp.
        destruct (decide (Forall _ ps)) as [Hf|Hf].
        -- rewrite decide_True by (by constructor). done.
        -- rewrite decide_False; [done|]. by intros [_ ?]%Forall_cons.
      * rewrite IHp. rewrite decide_False; [done|]. by intros [? _]%Forall_cons.
    + apply Forall_forall. intros pc [_ Hin]%list_elem_of_filter.
      rewrite Forall_forall in Hpcs. by apply Hpcs.
Qed.

Lemma filter_kept_ok (P : piece → Prop) `{!∀ pc, Decision (P pc)} pcs :
  Forall (λ pc, piece_ok pc = true) pcs →
  Forall (λ pc, piece_ok pc = true) (filter P pcs).
Proof.
  intros Hpcs. apply Forall_forall. intros pc [_ Hin]%list_elem_of_filter.
  rewrite Forall_forall in Hpcs. by apply Hpcs.
Qed.

Lemma filter_twice {A} (P : A → Prop) `{!∀ x, Decision (P x)} (l : list A) :
  filter P (filter P l) = filter P l.
Proof.
  induction l as [|x l IH]; [done|]. rewrite filter_cons.
  destruct (decide (P x)); [|done]. rewrite filter_cons, decide_True by done.
  by rewrite IH.
Qed.

(** A text without opening bracket is left as it is. *)
Lemma clean_rich_text_no_opener text :
  Forall (λ c, is_opener c = false) text → clean_rich_text text = text.
Proof.
  intros Htext.
  assert (text = flatten (Plain <$> text)) as Hflat.
  { unfold flatten. clear. induction text as [|c text IH]; [done|].
    rewrite fmap_cons, bind_cons. simpl. by rewrite <- IH. }
  rewrite Hflat at 1. rewrite clean_rich_text_pieces.
  - rewrite Hflat at 2. f_equal. clear. induction text as [|c text IH]; [done|].
    rewrite fmap_cons, filter_cons, decide_True; [by rewrite IH|].
    by apply Forall_forall.
  - apply Forall_fmap. eapply Forall_impl; [exact Htext|].
    intros c Hc. simpl. by rewrite Hc.
Qed.

Lemma isspace_blank c : Re.isspace c = true → blank_class c = true.
Proof. unfold blank_class. intros ->. by rewrite orb_true_r. Qed.

Lemma blank_no_opener c : blank_class c = true → is_opener c = false.
Proof.
  unfold is_opener. intros Hc.
  destruct (N.eqb_spec c 0x3C) as [->|_]; [by vm_compute in Hc|].
  destruct (N.eqb_spec c 0x5B) as [->|_]; [by vm_compute in Hc|]. done.
Qed.

(** ** C8: tag stripping twice *)

(** C8, as stated, fails: removing the inner [<b>] of ["<<b>b>"] joins the
    fragments around it into a new [<b>], which only a second run removes. *)
Lemma clean_rich_text_not_idempotent :
  clean_rich_text (lit "<<b>b>") = lit "<b>"
  ∧ clean_rich_text (clean_rich_text (lit "<<b>b>")) = []
  ∧ clean_rich_text (clean_rich_text (lit "<<b>b>"))
    ≠ clean_rich_text (lit "<<b>b>").
Proof. split; [|split]; vm_compute; [reflexivity | reflexivity | discriminate]. Qed.

(** C8, amended. Tag stripping is idempotent on every text whose markup is
    not nested: a text made of characters other than [<] and [[] and of
    bracketed groups, recognized tags or not, each running from its opening
    bracket to the first matching closing bracket without another [<] or
    [[] in between. *)
Theorem clean_rich_text_idempotent (pcs : list piece)
  (Hflat : Forall (λ pc, piece_ok pc = true) pcs) :
  clean_rich_text (clean_rich_text (flatten pcs)) = clean_rich_text (flatten pcs).
Proof.
  rewrite (clean_rich_text_pieces pcs) by done.
  rewrite clean_rich_text_pieces by (by apply filter_kept_ok).
  by rewrite filter_twice.
Qed.

Lemma clean_rich_text_idempotent_witness :
  clean_rich_text
    (clean_rich_text
       (flatten [Markup 0x3C (lit "size=3>"); Plain 0x306F; Markup 0x3C (lit "/size>");
                 Markup 0x5B (lit "note]"); Plain 0x3E; Markup 0x5B (lit "wait=2]")]%N))
  = clean_rich_text
      (flatten [Markup 0x3C (lit "size=3>"); Plain 0x306F; Markup 0x3C (lit "/size>");
                Markup 0x5B (lit "note]"); Plain 0x3E; Markup 0x5B (lit "wait=2]")]%N).
Proof.
  apply (clean_rich_text_idempotent
           [Markup 0x3C (lit "size=3>"); Plain 0x306F; Markup 0x3C (lit "/size>");
            Markup 0x5B (lit "note]"); Plain 0x3E; Markup 0x5B (lit "wait=2]")]%N).
  apply (bool_decide_unpack _). vm_compute. reflexivity.
Defined.

Example clean_pieces_demo :
  clean_rich_text
    (flatten [Markup 0x3C (lit "size=3>"); Plain 0x306F; Markup 0x3C (lit "/size>");
              Markup 0x5B (lit "note]"); Plain 0x3E; Markup 0x5B (lit "wait=2]")]%N)
  = 0x306F%N :: lit "[note]>".
Proof. vm_compute. reflexivity. Qed.

(** ** C5: empty input *)

(** C5. For every backend, raising or not, and every text that is empty
    once tags and blanks are removed, in particular every text made of
    whitespace only, the empty text included, [process_text] returns the
    pair [("0", "-")] and not an exception. *)
Theorem empty_input_sentinel (conv : JapaneseConverter) (text : pystr)
  (Hempty : remove_blanks (clean_rich_text text) = []
            ∨ Forall (λ c, Re.isspace c = true) text) :
  process_text conv text = Some (lit "0", lit "-").
Proof.
  assert (remove_blanks (clean_rich_text text) = []) as Hclean.
  { destruct Hempty as [Hclean|Hspace]; [done|].
    assert (Forall (λ c, blank_class c = true) text) as Hblank
      by (eapply Forall_impl; [exact Hspace | apply isspace_blank]).
    rewrite clean_rich_text_no_opener.
    - by apply remove_blanks_all_blank.
    - eapply Forall_impl; [exact Hblank | apply blank_no_opener]. }
  unfold process_text. by rewrite Hclean.
Qed.

Lemma empty_input_sentinel_witness :
  process_text raising (lit "<b> </b>" ++ [0x3000; 0x0A]%N) = Some (lit "0", lit "-").
Proof.
  apply (empty_input_sentinel raising (lit "<b> </b>" ++ [0x3000; 0x0A]%N)).
  left. vm_compute. reflexivity.
Defined.

(** ** C6: punctuation *)

Lemma process_chars_ext conv1 conv2 clean_text st :
  (∀ c, str_in c punctuation = false →
        to_hiragana conv1 [c] = to_hiragana conv2 [c]) →
  process_chars conv1 clean_text st = process_chars conv2 clean_text st.
Proof.
  intros Hagree. revert st. induction clean_text as [|c cs IH]; intros st; [done|].
  cbn [process_chars].
  assert (process_char conv1 st c = process_char conv2 st c) as ->.
  { unfold process_char. destruct (str_in c punctuation) eqn:Hc; [done|].
    by rewrite Hagree. }
  destruct (process_char conv2 st c); [apply IH | done].
Qed.

(** C6. On a character of the punctuation set the loop body appends the
    count ["1"] and the phoneme ["-"] whatever the backend is, even one
    that raises on every call, so the backend is not called; the result of
    [process_text] does not depend on what the backend does on punctuation;
    a lone full stop is converted under the backend that always raises; and
    "ha" followed by a full stop, with "ha" read as itself, gives
    [("11", "a,-")]. *)
Theorem punctuation_bypasses_backend :
  (∀ conv st char,
     str_in char punctuation = true →
     process_char conv st char
     = Some (Buffers (phoneme_counts st ++ [lit "1"])
                     (all_phonemes st ++ [lit "-"])))
  ∧ (∀ conv1 conv2 text,
       (∀ c, str_in c punctuation = false →
             to_hiragana conv1 [c] = to_hiragana conv2 [c]) →
       process_text conv1 text = process_text conv2 text)
  ∧ process_text raising [0x3002%N] = Some (lit "1", lit "-")
  ∧ (∀ f, f [0x306F%N] = [0x306F%N] →
          process_text (reading f) [0x306F; 0x3002]%N
          = Some (lit "11", lit "a,-")).
Proof.
  split; [|split; [|split]].
  - intros conv st char Hpunct. unfold process_char. by rewrite Hpunct.
  - intros conv1 conv2 text Hagree. unfold process_text.
    destruct (remove_blanks (clean_rich_text text)) as [|c cs]; [done|].
    by rewrite (process_chars_ext conv1 conv2).
  - vm_compute. reflexivity.
  - intros f Hf. rewrite process_text_reading.
    assert (remove_blanks (clean_rich_text [0x306F; 0x3002]%N)
            = [0x306F; 0x3002]%N) as -> by (vm_compute; reflexivity).
    unfold count_str_of, phoneme_str_of.
    rewrite !fmap_cons, !bind_cons. unfold char_count, char_tokens.
    rewrite Hf. vm_compute. reflexivity.
Qed.

Lemma punctuation_bypasses_backend_witness :
  process_char raising (Buffers [lit "2"] [lit "a"; lit "i"]) 0xFF01%N
  = Some (Buffers ([lit "2"] ++ [lit "1"]) ([lit "a"; lit "i"] ++ [lit "-"]))
  ∧ process_text (reading (λ t, t)) [0x306F; 0x3002]%N
    = Some (lit "11", lit "a,-").
Proof.
  split.
  - apply (proj1 punctuation_bypasses_backend raising
             (Buffers [lit "2"] [lit "a"; lit "i"]) 0xFF01%N).
    vm_compute. reflexivity.
  - apply (proj2 (proj2 (proj2 punctuation_bypasses_backend)) (λ t, t)).
    reflexivity.
Defined.

(** ** C7: glyphs outside the table *)

(** C7. For every glyph that is not a key of the table, the lookup, a total
    function, returns ["-"], and the glyph adds nothing to the phonemes
    collected from a reading, wherever it stands in it. *)
Theorem unknown_glyph_excluded (g : N)
  (Hunknown : hiragana_phoneme_map !! g = None) :
  hiragana_to_phoneme g = lit "-"
  ∧ (∀ before after char_phonemes,
       collect_phonemes (before ++ g :: after) char_phonemes
       = collect_phonemes (before ++ after) char_phonemes).
Proof.
  assert (hiragana_to_phoneme g = lit "-") as Hdash
    by (unfold hiragana_to_phoneme; by rewrite Hunknown).
  split; [done|]. intros before after acc.
  rewrite !collect_phonemes_filter, !fmap_app, fmap_cons, !filter_app, filter_cons.
  rewrite decide_False; [done|]. rewrite Hdash. by intros [].
Qed.

Lemma unknown_glyph_excluded_witness :
  hiragana_to_phoneme 0x3094%N = lit "-"
  ∧ (∀ before after char_phonemes,
       collect_phonemes (before ++ 0x3094%N :: after) char_phonemes
       = collect_phonemes (before ++ after) char_phonemes).
Proof.
  apply (unknown_glyph_excluded 0x3094%N). vm_compute. reflexivity.
Defined.

(** ** C9: counting morae *)

(** C9, as stated, fails: the katakana small a is neither one of small ya,
    yu, yo, tsu nor a katakana counterpart of one, yet [count_mora] does not
    count it. Besides, whitespace and punctuation outside the seven
    characters tested for, such as a carriage return or a full-width
    exclamation mark, are counted. *)
Lemma count_mora_small_vowel :
  count_mora [0x30A1%N] = 0 ∧ count_mora_spec [0x30A1%N] = 1
  ∧ count_mora [0x0D; 0xFF01]%N = 2
  ∧ Re.isspace 0x0D = true ∧ str_in 0xFF01 punctuation = true.
Proof. repeat split; vm_compute; reflexivity. Qed.

Lemma count_mora_loop_filter hiragana count :
  count_mora_loop hiragana count
  = count + length (filter (λ c, (c ∉ small_chars) ∧ (c ∉ mora_blanks)) hiragana).
Proof.
  revert count. induction hiragana as [|c cs IH]; intros count; [simpl; lia|].
  cbn [count_mora_loop]. rewrite IH, filter_cons.
  destruct (str_in c small_chars) eqn:Hs; simpl.
  - apply str_in_elem_of in Hs. rewrite decide_False by (by intros [? _]). done.
  - apply str_in_false in Hs. destruct (str_in c mora_blanks) eqn:Hb; simpl.
    + apply str_in_elem_of in Hb. rewrite decide_False by (by intros [_ ?]). done.
    + apply str_in_false in Hb. rewrite decide_True by done. simpl. lia.
Qed.

(** C9, amended. [count_mora] returns the number of characters that are
    neither one of the thirteen small characters (small ya, yu, yo, tsu,
    the katakana small a, i, u, e, o and the katakana small ya, yu, yo,
    tsu) nor one of the seven characters space, tab, newline, full stop,
    comma and their two full-width forms; on a string without katakana
    small vowel this is the count the specification describes. *)
Theorem count_mora_counts (hiragana : pystr) :
  count_mora hiragana
  = length (filter (λ c, (c ∉ small_chars) ∧ (c ∉ mora_blanks)) hiragana)
  ∧ ((∀ c, c ∈ hiragana → c ∉ small_katakana_vowels) →
     count_mora hiragana = count_mora_spec hiragana).
Proof.
  unfold count_mora. rewrite count_mora_loop_filter. split; [done|].
  intros Hvowels. unfold count_mora_spec. simpl. f_equal.
  induction hiragana as [|c cs IH]; [done|].
  rewrite !filter_cons, IH by (intros c' Hc'; apply Hvowels; by right).
  assert (c ∉ small_chars ↔ c ∉ spec_small_kana) as Hiff.
  { specialize (Hvowels c (list_elem_of_here _ _)).
    unfold small_chars, spec_small_kana, small_katakana_vowels in *.
    rewrite !not_elem_of_cons in *. tauto. }
  destruct (decide ((c ∉ small_chars) ∧ (c ∉ mora_blanks))) as [Hd|Hd];
    [rewrite decide_True by tauto | rewrite decide_False by tauto]; done.
Qed.

Lemma count_mora_counts_witness :
  count_mora [0x304D; 0x3083; 0x3002; 0x3041]%N
  = count_mora_spec [0x304D; 0x3083; 0x3002; 0x3041]%N.
Proof.
  apply (proj2 (count_mora_counts [0x304D; 0x3083; 0x3002; 0x3041]%N)).
  apply Forall_forall. apply (bool_decide_unpack _). vm_compute. reflexivity.
Defined.

Example count_mora_demo : count_mora [0x304D; 0x3083; 0x3002; 0x3041]%N = 2.
Proof. reflexivity. Qed.

(** ** C1: the lip-closing rows *)

(** C1, as stated, fails: read as itself, the kana "bu" gives the stream
    [nu], a single token counted once, and not the two tokens of [n,u]. *)
Lemma bilabial_two_tokens_fails :
  process_text (reading (λ t, t)) [0x3076%N] = Some (lit "1", lit "nu")
  ∧ lit "nu" ≠ lit "n,u"
  ∧ str_split 0x2C%N (lit "nu") = [lit "nu"]
  ∧ str_split 0x2C%N (lit "n,u") = [lit "n"; lit "u"].
Proof.
  split; [vm_compute; reflexivity|]. split; [discriminate|].
  split; vm_compute; reflexivity.
Qed.

Lemma bilabial_rows_computed :
  Forall (λ gv : N * pystr,
            hiragana_to_phoneme gv.1 = lit "n" ++ gv.2
            ∧ collect_phonemes [gv.1] [] = [lit "n" ++ gv.2]
            ∧ process_text (reading (λ t, t)) [gv.1]
              = Some (lit "1", lit "n" ++ gv.2)
            ∧ str_split 0x2C%N (lit "n" ++ gv.2) = [lit "n" ++ gv.2])
    bilabial_rows.
Proof. apply (bool_decide_unpack _). vm_compute. reflexivity. Qed.

(** C1, amended. For every kana of the ba, pa and ma rows the table holds
    the two-letter string made of n and the vowel; the string is collected
    as one phoneme and serialized as one token counted once: read as
    itself, the kana alone gives the count ["1"] and the stream n-vowel
    without comma, and any character other than punctuation whose reading
    is that kana contributes the count 1 and that one token. In particular
    "ma" gives [na], "bu" gives [nu] and "po" gives [no]. *)
Theorem bilabial_one_token :
  Forall (λ gv : N * pystr,
            hiragana_to_phoneme gv.1 = lit "n" ++ gv.2
            ∧ collect_phonemes [gv.1] [] = [lit "n" ++ gv.2]
            ∧ process_text (reading (λ t, t)) [gv.1]
              = Some (lit "1", lit "n" ++ gv.2)
            ∧ str_split 0x2C%N (lit "n" ++ gv.2) = [lit "n" ++ gv.2]
            ∧ (∀ f char,
                 str_in char punctuation = false → f [char] = [gv.1] →
                 char_count f char = 1
                 ∧ char_tokens f char = [lit "n" ++ gv.2]))
    bilabial_rows
  ∧ process_text (reading (λ t, t)) [0x307E%N] = Some (lit "1", lit "na")
  ∧ process_text (reading (λ t, t)) [0x3076%N] = Some (lit "1", lit "nu")
  ∧ process_text (reading (λ t, t)) [0x307D%N] = Some (lit "1", lit "no").
Proof.
  split; [|repeat split; vm_compute; reflexivity].
  eapply Forall_impl; [exact bilabial_rows_computed|].
  intros [g v] (Hlookup & Hcollect & Htext & Hsplit). cbn [fst snd] in *.
  do 4 (split; [done|]). intros f char Hpunct Hf.
  unfold char_count, char_tokens. rewrite Hpunct, Hf, Hcollect. done.
Qed.

Lemma bilabial_one_token_witness :
  char_count (λ _, [0x307F%N]) 0x5B9F%N = 1
  ∧ char_tokens (λ _, [0x307F%N]) 0x5B9F%N = [lit "ni"].
Proof.
  pose proof (proj1 bilabial_one_token) as Hrows.
  rewrite Forall_forall in Hrows.
  refine (proj2 (proj2 (proj2 (proj2 (Hrows (0x307F%N, lit "i") _))))
            (λ _, [0x307F%N]) 0x5B9F%N _ _).
  - apply (bool_decide_unpack _). vm_compute. reflexivity.
  - vm_compute. reflexivity.
  - reflexivity.
Defined.

(** * Further properties of the module *)

(** ** [romaji_to_phoneme] *)

Lemma special_consonant_keys_NoDup : NoDup special_consonant_items.*1.
Proof. apply (bool_decide_unpack _). vm_compute. reflexivity. Qed.

(** A key is one of m, b, p followed by a vowel; its code is a lip-closing
    code. *)
Lemma special_consonants_lookup k code :
  special_consonants !! k = Some code →
  code ∈ bilabial_codes
  ∧ ∃ c v, k = [c; v] ∧ c ∈ lit "mbp" ∧ v ∈ lit "aiueo".
Proof.
  intros Hk. apply elem_of_list_to_map_2 in Hk.
  assert (Forall (λ kv : pystr * pystr,
                    kv.2 ∈ bilabial_codes
                    ∧ ∃ c v, kv.1 = [c; v] ∧ c ∈ lit "mbp" ∧ v ∈ lit "aiueo")
            special_consonant_items) as Hall.
  { unfold special_consonant_items.
    repeat (apply Forall_cons; split;
            [split; [apply (bool_decide_unpack _); vm_compute; reflexivity
                    | eexists _, _; split; [reflexivity|];
                      split; apply (bool_decide_unpack _); vm_compute; reflexivity]|]).
    constructor. }
  rewrite Forall_forall in Hall. exact (Hall _ Hk).
Qed.

#[global] Opaque special_consonants.

Lemma romaji_single_app c acc : romaji_single c acc = acc ++ romaji_single c [].
Proof.
  unfold romaji_single. destruct (str_in c (lit "aiueo")); [done|].
  destruct (N.eqb c 0x6E); [done|].
  destruct (str_in c romaji_blanks); [done | by rewrite app_nil_r].
Qed.

(** With fuel for every remaining character, the index loop appends the
    phonemes of the rest of the string. *)
Lemma romaji_loop_fuel fuel romaji i phonemes :
  length romaji - i ≤ fuel →
  romaji_loop fuel romaji i phonemes = phonemes ++ romaji_phonemes (drop i romaji).
Proof.
  revert i phonemes. induction fuel as [|fuel IH]; intros i acc Hfuel.
  - cbn [romaji_loop]. rewrite drop_ge by lia. by rewrite app_nil_r.
  - cbn [romaji_loop]. destruct (Nat.ltb_spec i (length romaji)) as [Hi|Hi];
      [|rewrite drop_ge by lia; by rewrite app_nil_r].
    destruct (lookup_lt_is_Some_2 romaji i Hi) as [c Hc]. rewrite Hc.
    rewrite (drop_S _ _ _ Hc).
    destruct (Nat.ltb_spec (i + 1) (length romaji)) as [Hi1|Hi1].
    + destruct (lookup_lt_is_Some_2 romaji (S i)) as [v Hv]; [lia|].
      rewrite (drop_S _ _ _ Hv).
      replace (take 2 (c :: v :: drop (S (S i)) romaji)) with [c; v]
        by reflexivity.
      cbn [romaji_phonemes].
      destruct (special_consonants !! [c; v]) as [code|].
      * rewrite IH by lia. rewrite <- app_assoc.
        by replace (i + 2) with (S (S i)) by lia.
      * rewrite IH by lia. rewrite romaji_single_app, <- app_assoc.
        replace (i + 1) with (S i) by lia. by rewrite (drop_S _ _ _ Hv).
    + rewrite IH by lia. rewrite (drop_ge _ (i + 1)) by lia.
      rewrite drop_ge by lia. cbn [romaji_phonemes].
      by rewrite app_nil_r, romaji_single_app.
Qed.

Lemma romaji_to_phoneme_scan romaji :
  romaji_to_phoneme romaji = romaji_phonemes romaji.
Proof. unfold romaji_to_phoneme. rewrite romaji_loop_fuel by lia. done. Qed.

(** Induction two characters at a time, the way [romaji_phonemes] recurses. *)
Lemma romaji_ind (P : pystr → Prop) :
  P [] → (∀ c, P [c]) → (∀ c v rest, P rest → P (v :: rest) → P (c :: v :: rest)) →
  ∀ romaji, P romaji.
Proof.
  intros Hnil Hone Hstep romaji.
  enough (P romaji ∧ ∀ c, P (c :: romaji)) as [? _] by done.
  induction romaji as [|v rest [IH1 IH2]]; [by split|].
  split; [apply IH2|]. intros c. by apply Hstep.
Qed.

Lemma romaji_single_range c :
  Forall (λ p, p ∈ phoneme_symbols ++ bilabial_codes) (romaji_single c [])
  ∧ length (romaji_single c []) ≤ 1.
Proof.
  unfold romaji_single. destruct (str_in c (lit "aiueo")) eqn:Hv.
  - split; [|simpl; lia]. apply Forall_singleton.
    apply str_in_elem_of in Hv.
    assert (Forall (λ c : N, [c] ∈ phoneme_symbols ++ bilabial_codes) (lit "aiueo"))
      as Hall by (apply (bool_decide_unpack _); vm_compute; reflexivity).
    rewrite Forall_forall in Hall. by apply Hall.
  - destruct (N.eqb c 0x6E); [|destruct (str_in c romaji_blanks)];
      (split; [|simpl; lia]); try apply Forall_nil_2;
      apply Forall_singleton; apply (bool_decide_unpack _); vm_compute; reflexivity.
Qed.

Lemma special_consonants_none c v :
  c ∉ lit "mbp" ∨ v ∉ lit "aiueo" → special_consonants !! [c; v] = None.
Proof.
  intros Hcv. destruct (special_consonants !! [c; v]) as [code|] eqn:Hk; [|done].
  apply special_consonants_lookup in Hk as (_ & c' & v' & [= -> ->] & Hc & Hv).
  by destruct Hcv.
Qed.

Lemma romaji_phonemes_step c v rest :
  romaji_phonemes (c :: v :: rest)
  = match special_consonants !! [c; v] with
    | Some code => code :: romaji_phonemes rest
    | None => romaji_single c [] ++ romaji_phonemes (v :: rest)
    end.
Proof. reflexivity. Qed.

(** X1. Every phoneme [romaji_to_phoneme] returns is one of the seven
    symbols or one of the five lip-closing codes, and there is at most one
    phoneme per character of the romaji string. *)
Theorem romaji_to_phoneme_range (romaji : pystr) :
  Forall (λ p, p ∈ phoneme_symbols ++ bilabial_codes) (romaji_to_phoneme romaji)
  ∧ length (romaji_to_phoneme romaji) ≤ length romaji.
Proof.
  rewrite romaji_to_phoneme_scan.
  induction romaji as [| c | c v rest [IHr1 IHr2] [IHv1 IHv2]] using romaji_ind.
  - split; [constructor | done].
  - apply romaji_single_range.
  - cbn [romaji_phonemes].
    destruct (special_consonants !! [c; v]) as [code|] eqn:Hk.
    + apply special_consonants_lookup in Hk as [Hcode _]. split.
      * apply Forall_cons. split; [|done]. apply elem_of_app. by right.
      * simpl in *. lia.
    + destruct (romaji_single_range c) as [Hs1 Hs2]. split.
      * by apply Forall_app.
      * rewrite length_app. simpl in *. lia.
Qed.

(** X2. On a romaji string without the letters m, b, p and without hyphen,
    [romaji_to_phoneme] is [char_to_phoneme] applied to every character,
    the skipped characters left out. *)
Theorem romaji_to_phoneme_chars (romaji : pystr)
  (Hplain : Forall (λ c, c ∉ lit "mbp-") romaji) :
  romaji_to_phoneme romaji = omap char_to_phoneme romaji.
Proof.
  rewrite romaji_to_phoneme_scan.
  assert (∀ c, c ∉ lit "mbp-" →
               romaji_single c [] = option_list (char_to_phoneme c)) as Hsingle.
  { intros c Hc. unfold romaji_single, char_to_phoneme.
    destruct (str_in c (lit "aiueo")); [done|].
    destruct (N.eqb c 0x6E); [done|].
    assert (str_in c romaji_blanks = str_in c char_blanks) as ->; [|by destruct (str_in _ _)].
    destruct (str_in c char_blanks) eqn:Hb.
    - apply str_in_elem_of. apply str_in_elem_of in Hb.
      unfold romaji_blanks, char_blanks in *.
      rewrite !elem_of_cons in *. tauto.
    - apply str_in_false. apply str_in_false in Hb.
      unfold romaji_blanks, char_blanks in *.
      change (lit "mbp-") with [0x6D; 0x62; 0x70; 0x2D]%N in Hc.
      rewrite !not_elem_of_cons in *. tauto. }
  assert (∀ c l, omap char_to_phoneme (c :: l)
                 = option_list (char_to_phoneme c) ++ omap char_to_phoneme l) as Hcons.
  { intros c l. simpl. by destruct (char_to_phoneme c). }
  induction romaji as [| c | c v rest IHr IHv] using romaji_ind.
  - done.
  - apply Forall_cons in Hplain as [Hc _]. cbn [romaji_phonemes].
    rewrite Hsingle, Hcons by done. by rewrite app_nil_r.
  - apply Forall_cons in Hplain as [Hc Hrest]. rewrite romaji_phonemes_step.
    rewrite special_consonants_none.
    + rewrite Hsingle, IHv by done. by rewrite (Hcons c).
    + left. change (lit "mbp-") with [0x6D; 0x62; 0x70; 0x2D]%N in Hc.
      change (lit "mbp") with [0x6D; 0x62; 0x70]%N.
      rewrite !not_elem_of_cons in *. tauto.
Qed.

Lemma romaji_to_phoneme_chars_witness :
  romaji_to_phoneme (lit "kon'nichiha, sekai.")
  = omap char_to_phoneme (lit "kon'nichiha, sekai.").
Proof.
  apply (romaji_to_phoneme_chars (lit "kon'nichiha, sekai.")).
  apply (bool_decide_unpack _). vm_compute. reflexivity.
Defined.

(** X3. [romaji_to_phoneme] distributes over concatenation whenever the
    last character of the first string and the first character of the
    second do not form a key of [special_consonants]. *)
Theorem romaji_to_phoneme_app (a b : pystr)
  (Hseam : ∀ c v, last a = Some c → head b = Some v →
                  special_consonants !! [c; v] = None) :
  romaji_to_phoneme (a ++ b) = romaji_to_phoneme a ++ romaji_to_phoneme b.
Proof.
  rewrite !romaji_to_phoneme_scan. revert Hseam.
  induction a as [| c | c v rest IHr IHv] using romaji_ind; intros Hseam.
  - done.
  - destruct b as [|v b]; [cbn [romaji_phonemes app]; by rewrite app_nil_r|].
    change ([c] ++ v :: b) with (c :: v :: b). rewrite romaji_phonemes_step.
    by rewrite (Hseam c v).
  - change ((c :: v :: rest) ++ b) with (c :: v :: (rest ++ b)).
    rewrite !romaji_phonemes_step.
    destruct (special_consonants !! [c; v]) as [code|].
    + rewrite IHr; [done|]. intros c' v' Hl Hh. apply Hseam; [|done].
      destruct rest; [done|]. by rewrite !last_cons_cons.
    + change (v :: rest ++ b) with ((v :: rest) ++ b).
      rewrite IHv, app_assoc; [done|]. intros c' v' Hl Hh. apply Hseam; [|done].
      by rewrite last_cons_cons.
Qed.

Lemma romaji_to_phoneme_app_witness :
  romaji_to_phoneme (lit "kam" ++ lit "ban")
  = romaji_to_phoneme (lit "kam") ++ romaji_to_phoneme (lit "ban").
Proof.
  apply (romaji_to_phoneme_app (lit "kam") (lit "ban")).
  intros c v [= <-] [= <-]. vm_compute. reflexivity.
Defined.

(** The seam matters: "m" and "a" give nothing and [a], "ma" gives [na]. *)
Example romaji_seam_demo :
  romaji_to_phoneme (lit "m" ++ lit "a") = [lit "na"]
  ∧ romaji_to_phoneme (lit "m") ++ romaji_to_phoneme (lit "a") = [lit "a"].
Proof. split; vm_compute; reflexivity. Qed.

(** ** [count_mora] *)

(** X4. [count_mora] is additive over concatenation and never exceeds the
    number of characters. *)
Theorem count_mora_app (a b : pystr) :
  count_mora (a ++ b) = count_mora a + count_mora b
  ∧ count_mora a ≤ length a.
Proof.
  unfold count_mora. rewrite !count_mora_loop_filter, filter_app, length_app.
  split; [simpl; lia|]. simpl. apply length_filter.
Qed.

(** ** The coverage of [hiragana_phoneme_map] *)

Lemma N_range_forall (P : N → Prop) (lo : N) (n : nat) :
  Forall P ((λ k, (lo + N.of_nat k)%N) <$> seq 0 n) →
  ∀ g, (lo ≤ g < lo + N.of_nat n)%N → P g.
Proof.
  intros Hall g Hg. rewrite Forall_forall in Hall. apply Hall.
  apply list_elem_of_fmap. exists (N.to_nat (g - lo)). split; [lia|].
  apply elem_of_seq. lia.
Qed.

(** X5. Among the hiragana from U+3041 to U+3093 the lookup gives ['-'], so
    that the kana is left out of every reading, exactly for the small a, i,
    u, e, o, the geminate mark and the small wa; every katakana letter from
    U+30A1 to U+30FA looks up to ['-']. *)
Theorem hiragana_coverage (g : N) :
  ((0x3041 ≤ g ≤ 0x3093)%N →
   (hiragana_to_phoneme g = lit "-" ↔ g ∈ silent_hiragana))
  ∧ ((0x30A1 ≤ g ≤ 0x30FA)%N → hiragana_to_phoneme g = lit "-").
Proof.
  split; intros Hg.
  - apply (N_range_forall
             (λ g, hiragana_to_phoneme g = lit "-" ↔ g ∈ silent_hiragana)
             0x3041%N 83); [|lia].
    apply (bool_decide_unpack _). vm_compute. reflexivity.
  - apply (N_range_forall (λ g, hiragana_to_phoneme g = lit "-") 0x30A1%N 90);
      [|lia].
    apply (bool_decide_unpack _). vm_compute. reflexivity.
Qed.

Lemma hiragana_coverage_witness :
  (hiragana_to_phoneme 0x308E%N = lit "-" ↔ 0x308E%N ∈ silent_hiragana)
  ∧ hiragana_to_phoneme 0x30DE%N = lit "-".
Proof.
  split.
  - apply (proj1 (hiragana_coverage 0x308E%N)). lia.
  - apply (proj2 (hiragana_coverage 0x30DE%N)). lia.
Defined.

(** ** [clean_rich_text] keeps what it does not delete *)

Lemma sub_scan_sublist p skip s : Re.sub_scan p skip s `sublist_of` s.
Proof.
  revert skip. induction s as [|c s IH]; intros skip; [done|].
  cbn [Re.sub_scan]. destruct skip as [|k]; [|by apply sublist_cons].
  destruct (Re.match_pattern p (c :: s)) as [[|k]|];
    [by apply sublist_skip | by apply sublist_cons | by apply sublist_skip].
Qed.

(** X6. The result of [clean_rich_text] is a subsequence of its input: the
    characters that stay keep their order, nothing is inserted or changed,
    and the text never grows. *)
Theorem clean_rich_text_sublist (text : pystr) :
  clean_rich_text text `sublist_of` text
  ∧ length (clean_rich_text text) ≤ length text.
Proof.
  assert (clean_rich_text text `sublist_of` text) as Hsub.
  { unfold clean_rich_text. generalize tag_passes. intros passes. revert text.
    induction passes as [|p ps IH]; intros text; [done|].
    cbn [foldl]. etrans; [apply IH|]. apply sub_scan_sublist. }
  split; [done | by apply sublist_length].
Qed.

(** X7. A text without [<] and without [[] is returned unchanged. *)
Theorem clean_rich_text_plain (text : pystr)
  (Hplain : ∀ c, c ∈ text → c ≠ 0x3C%N ∧ c ≠ 0x5B%N) :
  clean_rich_text text = text.
Proof.
  apply clean_rich_text_no_opener. apply Forall_forall. intros c Hc.
  destruct (Hplain c Hc) as [H1 H2]. unfold is_opener.
  apply orb_false_iff. split; by apply N.eqb_neq.
Qed.

Lemma clean_rich_text_plain_witness :
  clean_rich_text (lit "a > b] /size=3") = lit "a > b] /size=3".
Proof.
  apply (clean_rich_text_plain (lit "a > b] /size=3")).
  apply Forall_forall. apply (bool_decide_unpack _). vm_compute. reflexivity.
Defined.

(** X8. On a text whose markup is not nested, [clean_rich_text] deletes
    exactly the bracketed groups that one of its patterns matches; plain
    characters and every other group, such as a tag outside the list or a
    tag in capitals, stay in place and in order. *)
Theorem clean_rich_text_allow_list (pcs : list piece)
  (Hflat : Forall (λ pc, piece_ok pc = true) pcs) :
  clean_rich_text (flatten pcs)
  = flatten (filter (λ pc, Forall (λ p, kept p pc = true) tag_passes) pcs).
Proof. by apply clean_rich_text_pieces. Qed.

Lemma clean_rich_text_allow_list_witness :
  clean_rich_text (lit "<b>x<B>[wait=3]<color=#fff>y</color><unknown>")
  = lit "x<B>y<unknown>".
Proof.
  etrans;
    [apply (clean_rich_text_allow_list
              [Markup 0x3C (lit "b>"); Plain 0x78; Markup 0x3C (lit "B>");
               Markup 0x5B (lit "wait=3]"); Markup 0x3C (lit "color=#fff>");
               Plain 0x79; Markup 0x3C (lit "/color>");
               Markup 0x3C (lit "unknown>")]%N);
     apply (bool_decide_unpack _); vm_compute; reflexivity|].
  vm_compute. reflexivity.
Defined.

(** ** Blank removal *)

(** X9. Blank removal keeps exactly the characters that are neither a
    carriage return, a newline nor whitespace: none is left in the result,
    removal distributes over concatenation and is idempotent. *)
Theorem remove_blanks_spec (a b : pystr) :
  Forall (λ c, blank_class c = false) (remove_blanks a)
  ∧ remove_blanks (a ++ b) = remove_blanks a ++ remove_blanks b
  ∧ remove_blanks (remove_blanks a) = remove_blanks a
  ∧ (Forall (λ c, blank_class c = false) a → remove_blanks a = a).
Proof.
  rewrite !remove_blanks_filter. repeat split.
  - apply Forall_forall. by intros c [? _]%list_elem_of_filter.
  - apply filter_app.
  - apply filter_twice.
  - intros Hall. induction Hall as [|c l Hc _ IH]; [done|].
    by rewrite filter_cons, decide_True, IH.
Qed.

(** ** [process_text] under a backend that may raise *)

Lemma process_chars_in conv1 conv2 clean_text st :
  (∀ c, c ∈ clean_text → str_in c punctuation = false →
        to_hiragana conv1 [c] = to_hiragana conv2 [c]) →
  process_chars conv1 clean_text st = process_chars conv2 clean_text st.
Proof.
  revert st. induction clean_text as [|c cs IH]; intros st Hagree; [done|].
  cbn [process_chars].
  assert (process_char conv1 st c = process_char conv2 st c) as ->.
  { unfold process_char. destruct (str_in c punctuation) eqn:Hc; [done|].
    rewrite (Hagree c); [done | by left | done]. }
  destruct (process_char conv2 st c); [|done].
  apply IH. intros c' Hc'. apply Hagree. by right.
Qed.

(** Where the backend succeeds on every character it is asked about, the
    loop runs as under the never-raising view of the backend. *)
Lemma process_chars_total conv clean_text st :
  (∀ c, c ∈ clean_text → str_in c punctuation = false →
        is_Some (to_hiragana conv [c])) →
  process_chars conv clean_text st
  = process_chars (reading (reading_of conv)) clean_text st.
Proof.
  intros Hok. apply process_chars_in. intros c Hc Hpunct.
  destruct (Hok c Hc Hpunct) as [h Hh]. unfold reading_of. simpl. by rewrite Hh.
Qed.

(** One raising call stops the loop. *)
Lemma process_chars_raise conv clean_text st c :
  c ∈ clean_text → str_in c punctuation = false → to_hiragana conv [c] = None →
  process_chars conv clean_text st = None.
Proof.
  intros Hc Hpunct Hraise. revert st.
  induction clean_text as [|c' cs IH]; intros st; [by apply elem_of_nil in Hc|].
  cbn [process_chars]. apply elem_of_cons in Hc as [<-|Hc].
  - unfold process_char. by rewrite Hpunct, Hraise.
  - destruct (process_char conv st c'); [by apply IH | done].
Qed.

Lemma raising_char_dec conv (clean_text : pystr) :
  (∃ c, c ∈ clean_text ∧ str_in c punctuation = false
        ∧ to_hiragana conv [c] = None)
  ∨ (∀ c, c ∈ clean_text → str_in c punctuation = false →
          is_Some (to_hiragana conv [c])).
Proof.
  induction clean_text as [|c cs [(c' & Hc' & Hp & Hr)|IH]].
  - right. intros c Hc. by apply elem_of_nil in Hc.
  - left. exists c'. split; [by right | done].
  - destruct (str_in c punctuation) eqn:Hp.
    + right. intros c' [->|Hc']%elem_of_cons Hp'; [congruence | by apply IH].
    + destruct (to_hiragana conv [c]) as [h|] eqn:Hh.
      * right. intros c' [->|Hc']%elem_of_cons Hp'; [by rewrite Hh | by apply IH].
      * left. exists c. split; [by left | done].
Qed.

(** X10. [process_text] is all or nothing: it raises exactly when the
    backend raises on some character of the cleaned text that is not
    punctuation, and otherwise returns what it returns under the
    never-raising view of the backend. *)
Theorem process_text_raises (conv : JapaneseConverter) (text : pystr) :
  (process_text conv text = None ↔
   ∃ c, c ∈ remove_blanks (clean_rich_text text)
        ∧ str_in c punctuation = false ∧ to_hiragana conv [c] = None)
  ∧ (process_text conv text ≠ None →
     process_text conv text = process_text (reading (reading_of conv)) text).
Proof.
  assert (∀ c, c ∈ remove_blanks (clean_rich_text text) →
               str_in c punctuation = false → to_hiragana conv [c] = None →
               process_text conv text = None) as Hraise.
  { intros c Hc Hp Hr. unfold process_text.
    destruct (remove_blanks (clean_rich_text text)) as [|c0 cs] eqn:Hclean;
      [by apply elem_of_nil in Hc|].
    by rewrite (process_chars_raise conv (c0 :: cs) _ c). }
  assert ((∀ c, c ∈ remove_blanks (clean_rich_text text) →
                str_in c punctuation = false → is_Some (to_hiragana conv [c])) →
          process_text conv text = process_text (reading (reading_of conv)) text)
    as Htotal.
  { intros Hok. unfold process_text.
    destruct (remove_blanks (clean_rich_text text)) as [|c0 cs]; [done|].
    by rewrite process_chars_total. }
  destruct (raising_char_dec conv (remove_blanks (clean_rich_text text)))
    as [(c & Hc & Hp & Hr)|Hok].
  - split; [|by rewrite (Hraise c)]. split; [by exists c | by intros _; apply (Hraise c)].
  - specialize (Htotal Hok). split; [|done]. rewrite Htotal, process_text_reading.
    split; [done|]. intros (c & Hc & Hp & Hr). destruct (Hok c Hc Hp) as [h Hh].
    congruence.
Qed.

Lemma process_text_raises_witness :
  process_text
    {| to_hiragana := λ t, if bool_decide (t = [0x5BA2%N]) then None else Some t |}
    [0x306F; 0x5BA2; 0x3002]%N
  = None.
Proof.
  apply (proj1 (process_text_raises _ [0x306F; 0x5BA2; 0x3002]%N)).
  exists 0x5BA2%N. repeat split.
  apply (bool_decide_unpack _). vm_compute. reflexivity.
Defined.

(** The two ways [process_text] can go. *)
Lemma process_text_cases conv text :
  ((∃ c, c ∈ remove_blanks (clean_rich_text text)
         ∧ str_in c punctuation = false ∧ to_hiragana conv [c] = None)
   ∧ process_text conv text = None)
  ∨ ((∀ c, c ∈ remove_blanks (clean_rich_text text) →
           str_in c punctuation = false → is_Some (to_hiragana conv [c]))
     ∧ process_text conv text = process_text (reading (reading_of conv)) text).
Proof.
  destruct (raising_char_dec conv (remove_blanks (clean_rich_text text)))
    as [(c & Hc & Hp & Hr)|Hok]; [left | right].
  - split; [by exists c|]. unfold process_text.
    destruct (remove_blanks (clean_rich_text text)) as [|c0 cs] eqn:Hclean;
      [by apply elem_of_nil in Hc|].
    by rewrite (process_chars_raise conv (c0 :: cs) _ c).
  - split; [done|]. unfold process_text.
    destruct (remove_blanks (clean_rich_text text)) as [|c0 cs]; [done|].
    by rewrite process_chars_total.
Qed.

Lemma str_join_app sep (l1 l2 : list pystr) :
  l1 ≠ [] → l2 ≠ [] →
  str_join sep (l1 ++ l2) = str_join sep l1 ++ sep ++ str_join sep l2.
Proof.
  intros Hl1 Hl2. induction l1 as [|t l1 IH]; [done|].
  destruct l1 as [|t' l1].
  - destruct l2; done.
  - change (str_join sep ((t :: t' :: l1) ++ l2))
      with (t ++ sep ++ str_join sep ((t' :: l1) ++ l2)).
    rewrite IH by done. change (str_join sep (t :: t' :: l1))
      with (t ++ sep ++ str_join sep (t' :: l1)).
    by rewrite <- !app_assoc.
Qed.

Lemma bind_tokens_nonempty' f (clean_text : pystr) :
  clean_text ≠ [] → clean_text ≫= char_tokens f ≠ [].
Proof. destruct clean_text; [done | intros _; apply bind_tokens_nonempty]. Qed.

(** Concatenation under a backend that never raises. *)
Lemma process_text_reading_app f a b :
  Forall (λ c, is_opener c = false) a → Forall (λ c, is_opener c = false) b →
  remove_blanks a ≠ [] → remove_blanks b ≠ [] →
  process_text (reading f) (a ++ b)
  = Some (count_str_of f (remove_blanks a) ++ count_str_of f (remove_blanks b),
          phoneme_str_of f (remove_blanks a) ++ lit ","
            ++ phoneme_str_of f (remove_blanks b)).
Proof.
  intros Ha Hb Hna Hnb. rewrite process_text_reading.
  rewrite clean_rich_text_no_opener by (by apply Forall_app).
  rewrite remove_blanks_filter, filter_app, <- !remove_blanks_filter.
  destruct (remove_blanks a ++ remove_blanks b) as [|c cs] eqn:Hab.
  { apply app_eq_nil in Hab as [? _]. done. }
  rewrite <- Hab. unfold count_str_of, phoneme_str_of, join_empty.
  rewrite fmap_app, concat_app, bind_app.
  by rewrite str_join_app by (by apply bind_tokens_nonempty').
Qed.

(** X11. For two texts without [<] and [[], neither of them blank,
    converting the concatenation is converting both and joining the
    results: the count strings are concatenated and the phoneme streams are
    joined with a comma; if either conversion raises, so does that of the
    concatenation. *)
Theorem process_text_app (conv : JapaneseConverter) (a b : pystr)
  (Ha : Forall (λ c, is_opener c = false) a)
  (Hb : Forall (λ c, is_opener c = false) b)
  (Hna : remove_blanks a ≠ []) (Hnb : remove_blanks b ≠ []) :
  process_text conv (a ++ b)
  = '(count_a, phonemes_a) ← process_text conv a;
    '(count_b, phonemes_b) ← process_text conv b;
    Some (count_a ++ count_b, phonemes_a ++ lit "," ++ phonemes_b).
Proof.
  assert (remove_blanks (clean_rich_text (a ++ b))
          = remove_blanks (clean_rich_text a) ++ remove_blanks (clean_rich_text b))
    as Hclean.
  { rewrite !clean_rich_text_no_opener by (done || by apply Forall_app).
    by rewrite !remove_blanks_filter, filter_app. }
  assert (∀ f t, Forall (λ c, is_opener c = false) t → remove_blanks t ≠ [] →
                 process_text (reading f) t
                 = Some (count_str_of f (remove_blanks t),
                         phoneme_str_of f (remove_blanks t))) as Hone.
  { intros f t Ht Hnt. rewrite process_text_reading, clean_rich_text_no_opener by done.
    by destruct (remove_blanks t). }
  destruct (process_text_cases conv a) as [[(c & Hc & Hp & Hr) ->]|[Hoka ->]].
  { cbn [mbind option_bind]. destruct (process_text_cases conv (a ++ b)) as [[_ ->]|[Hok _]]; [done|].
    destruct (Hok c) as [h Hh]; [|done|congruence].
    rewrite Hclean. apply elem_of_app. by left. }
  rewrite (Hone _ a) by done. cbn [mbind option_bind].
  destruct (process_text_cases conv b) as [[(c & Hc & Hp & Hr) ->]|[Hokb ->]].
  { cbn [mbind option_bind]. destruct (process_text_cases conv (a ++ b)) as [[_ ->]|[Hok _]]; [done|].
    destruct (Hok c) as [h Hh]; [|done|congruence].
    rewrite Hclean. apply elem_of_app. by right. }
  rewrite (Hone _ b) by done. cbn [mbind option_bind].
  destruct (process_text_cases conv (a ++ b))
    as [[(c & Hc & Hp & Hr) _]|[_ ->]]; [|by apply process_text_reading_app].
  rewrite Hclean in Hc. apply elem_of_app in Hc as [Hc|Hc].
  - destruct (Hoka c Hc Hp) as [h Hh]. congruence.
  - destruct (Hokb c Hc Hp) as [h Hh]. congruence.
Qed.

Lemma process_text_app_witness :
  process_text (reading (λ t, t)) ([0x306F; 0x3044]%N ++ [0x3002; 0x307E]%N)
  = '(count_a, phonemes_a) ← process_text (reading (λ t, t)) [0x306F; 0x3044]%N;
    '(count_b, phonemes_b) ← process_text (reading (λ t, t)) [0x3002; 0x307E]%N;
    Some (count_a ++ count_b, phonemes_a ++ lit "," ++ phonemes_b).
Proof.
  apply (process_text_app (reading (λ t, t)) [0x306F; 0x3044]%N [0x3002; 0x307E]%N).
  - apply (bool_decide_unpack _). vm_compute. reflexivity.
  - apply (bool_decide_unpack _). vm_compute. reflexivity.
  - vm_compute. discriminate.
  - vm_compute. discriminate.
Defined.

(** X12. On a text whose markup is not nested, tags leave no trace:
    [process_text] returns the same on the text and on the text with the
    groups that [clean_rich_text] deletes taken out beforehand. *)
Theorem process_text_tags_invisible (conv : JapaneseConverter) (pcs : list piece)
  (Hflat : Forall (λ pc, piece_ok pc = true) pcs) :
  process_text conv (flatten pcs)
  = process_text conv
      (flatten (filter (λ pc, Forall (λ p, kept p pc = true) tag_passes) pcs)).
Proof.
  unfold process_text. rewrite (clean_rich_text_pieces pcs) by done.
  rewrite clean_rich_text_pieces by (by apply filter_kept_ok).
  by rewrite filter_twice.
Qed.

Lemma process_text_tags_invisible_witness :
  process_text (reading (λ t, t))
    (flatten [Markup 0x3C (lit "b>"); Plain 0x306F; Markup 0x3C (lit "/b>");
              Markup 0x5B (lit "wait=1]"); Plain 0x3002]%N)
  = process_text (reading (λ t, t))
      (flatten (filter (λ pc, Forall (λ p, kept p pc = true) tag_passes)
                  [Markup 0x3C (lit "b>"); Plain 0x306F; Markup 0x3C (lit "/b>");
                   Markup 0x5B (lit "wait=1]"); Plain 0x3002]%N)).
Proof.
  apply (process_text_tags_invisible (reading (λ t, t))
           [Markup 0x3C (lit "b>"); Plain 0x306F; Markup 0x3C (lit "/b>");
            Markup 0x5B (lit "wait=1]"); Plain 0x3002]%N).
  apply (bool_decide_unpack _). vm_compute. reflexivity.
Defined.

Example tags_invisible_demo :
  process_text (reading (λ t, t)) (lit "<b>" ++ [0x306F%N] ++ lit "</b>[wait=1]" ++ [0x3002%N])
  = Some (lit "11", lit "a,-").
Proof. vm_compute. reflexivity. Qed.

(** X13. When every character of the cleaned text is punctuation, the
    backend is never called: whatever it is, the count string is a run of
    1s and the phoneme stream as many hyphens, one per character. *)
Theorem process_text_punctuation (conv : JapaneseConverter) (text : pystr)
  (Hpunct : Forall (λ c, str_in c punctuation = true)
              (remove_blanks (clean_rich_text text)))
  (Hclean : remove_blanks (clean_rich_text text) ≠ []) :
  process_text conv text
  = Some (replicate (length (remove_blanks (clean_rich_text text))) 0x31%N,
          str_join (lit ",")
            (replicate (length (remove_blanks (clean_rich_text text))) (lit "-"))).
Proof.
  assert (process_text conv text = process_text (reading (λ t, t)) text) as ->.
  { unfold process_text.
    destruct (remove_blanks (clean_rich_text text)) as [|c cs]; [done|].
    rewrite (process_chars_in conv (reading (λ t, t))); [done|].
    intros c' Hc' Hp. rewrite Forall_forall in Hpunct.
    specialize (Hpunct c' Hc'). congruence. }
  rewrite process_text_reading.
  destruct (remove_blanks (clean_rich_text text)) as [|c cs] eqn:Hc; [done|].
  clear Hc Hclean. unfold count_str_of, phoneme_str_of, join_empty.
  f_equal. f_equal.
  - induction Hpunct as [|c' l Hc' _ IH]; [done|].
    rewrite fmap_cons, concat_cons, IH. unfold char_count. by rewrite Hc'.
  - f_equal. induction Hpunct as [|c' l Hc' _ IH]; [done|].
    rewrite bind_cons, IH. unfold char_tokens. by rewrite Hc'.
Qed.

Lemma process_text_punctuation_witness :
  process_text raising [0x2026; 0x2026; 0x20; 0xFF01; 0xFF1F]%N
  = Some (replicate
            (length (remove_blanks
                       (clean_rich_text [0x2026; 0x2026; 0x20; 0xFF01; 0xFF1F]%N)))
            0x31%N,
          str_join (lit ",")
            (replicate
               (length (remove_blanks
                          (clean_rich_text [0x2026; 0x2026; 0x20; 0xFF01; 0xFF1F]%N)))
               (lit "-"))).
Proof.
  apply (process_text_punctuation raising [0x2026; 0x2026; 0x20; 0xFF01; 0xFF1F]%N).
  - apply (bool_decide_unpack _). vm_compute. reflexivity.
  - vm_compute. discriminate.
Defined.

Lemma py_str_digits n : Forall (λ c, is_digit c = true) (py_str n).
Proof.
  unfold py_str. generalize (Nat.to_uint n). intros d.
  induction d; simpl; constructor; done.
Qed.

Lemma symbols_nonempty (t : pystr) : t ∈ phoneme_symbols ++ bilabial_codes → t ≠ [].
Proof.
  intros Ht.
  assert (Forall (λ t : pystr, t ≠ []) (phoneme_symbols ++ bilabial_codes))
    as Hall by (apply (bool_decide_unpack _); vm_compute; reflexivity).
  rewrite Forall_forall in Hall. by apply Hall.
Qed.

(** X14. Whenever [process_text] returns, under any backend, the count
    string is a non-empty string of decimal digits, and no token of the
    phoneme stream is empty: the stream neither starts nor ends with a
    comma and has no two commas in a row. *)
Theorem process_text_well_formed (conv : JapaneseConverter) (text : pystr)
  (count_str phoneme_str : pystr)
  (Hresult : process_text conv text = Some (count_str, phoneme_str)) :
  Forall (λ c, is_digit c = true) count_str
  ∧ count_str ≠ []
  ∧ Forall (λ t, t ≠ []) (str_split 0x2C%N phoneme_str).
Proof.
  destruct (process_text_cases conv text) as [[_ Hnone]|[_ Hsome]]; [congruence|].
  rewrite Hsome, process_text_reading in Hresult.
  destruct (remove_blanks (clean_rich_text text)) as [|c cs] eqn:Hclean.
  { injection Hresult as <- <-. repeat split; [|done|].
    - apply (bool_decide_unpack _). vm_compute. reflexivity.
    - apply (bool_decide_unpack _). vm_compute. reflexivity. }
  injection Hresult as <- <-. set (f := reading_of conv). repeat split.
  - unfold count_str_of, join_empty. apply Forall_concat, Forall_fmap, Forall_forall.
    intros c' _. apply py_str_digits.
  - unfold count_str_of, join_empty. rewrite fmap_cons, concat_cons.
    pose proof (py_str_nonempty (char_count f c)).
    by destruct (py_str (char_count f c)).
  - rewrite phoneme_str_split by done. apply Forall_forall.
    intros t (c' & Ht & _)%list_elem_of_bind. apply symbols_nonempty.
    pose proof (char_tokens_range f c') as Hr. rewrite Forall_forall in Hr. auto.
Qed.

Lemma process_text_well_formed_witness :
  Forall (λ c, is_digit c = true) (lit "212")
  ∧ lit "212" ≠ []
  ∧ Forall (λ t, t ≠ []) (str_split 0x2C%N (lit "a,a,-,na,na")).
Proof.
  apply (process_text_well_formed (reading (λ t, t ++ t))
           [0x306F; 0x20; 0x3002; 0x307E]%N).
  vm_compute. reflexivity.
Defined.

(** X15. In a text without [<] and [[], blanks do not matter: two such
    texts that agree once carriage returns, newlines and whitespace are
    removed are converted alike. *)
Theorem process_text_blanks (conv : JapaneseConverter) (a b : pystr)
  (Ha : Forall (λ c, is_opener c = false) a)
  (Hb : Forall (λ c, is_opener c = false) b)
  (Hsame : remove_blanks a = remove_blanks b) :
  process_text conv a = process_text conv b.
Proof.
  unfold process_text. rewrite !clean_rich_text_no_opener by done.
  by rewrite Hsame.
Qed.

Lemma process_text_blanks_witness :
  process_text raising [0x2026; 0x0A; 0x3000; 0x3002]%N
  = process_text raising [0x20; 0x2026; 0x3002; 0x0D]%N.
Proof.
  apply (process_text_blanks raising
           [0x2026; 0x0A; 0x3000; 0x3002]%N [0x20; 0x2026; 0x3002; 0x0D]%N).
  - apply (bool_decide_unpack _). vm_compute. reflexivity.
  - apply (bool_decide_unpack _). vm_compute. reflexivity.
  - vm_compute. reflexivity.
Defined.

(** Inside a tag a blank does matter: it keeps the tag from being one. *)
Example blank_in_tag_demo :
  process_text (reading (λ t, t)) (lit "<b>") = Some (lit "0", lit "-")
  ∧ process_text (reading (λ t, t)) (lit "< b>") = Some (lit "111", lit "-,-,-").
Proof. split; vm_compute; reflexivity. Qed.

Lemma punctuation_not_keys :
  Forall (λ c, hiragana_to_phoneme c = lit "-") punctuation.
Proof. apply (bool_decide_unpack _). vm_compute. reflexivity. Qed.

(** X16. When the backend reads every character of the cleaned text as
    itself, as it does for a text already in kana, every character counts
    1 and the phoneme stream is the table lookup of each character, joined
    with commas. *)
Theorem process_text_kana (f : pystr → pystr) (text : pystr)
  (Hself : ∀ c, c ∈ remove_blanks (clean_rich_text text) → f [c] = [c])
  (Hclean : remove_blanks (clean_rich_text text) ≠ []) :
  process_text (reading f) text
  = Some (replicate (length (remove_blanks (clean_rich_text text))) 0x31%N,
          str_join (lit ",")
            (hiragana_to_phoneme <$> remove_blanks (clean_rich_text text))).
Proof.
  rewrite process_text_reading.
  destruct (remove_blanks (clean_rich_text text)) as [|c0 cs0] eqn:Hc; [done|].
  clear Hc Hclean. generalize dependent (c0 :: cs0). intros cs Hself.
  assert (∀ c, c ∈ cs → char_count f c = 1
                        ∧ char_tokens f c = [hiragana_to_phoneme c]) as Hchar.
  { intros c Hc. unfold char_count, char_tokens.
    destruct (str_in c punctuation) eqn:Hp.
    - apply str_in_elem_of in Hp. pose proof punctuation_not_keys as Hk.
      rewrite Forall_forall in Hk. by rewrite (Hk c Hp).
    - rewrite (Hself c Hc). cbn [collect_phonemes].
      case_bool_decide as Hd; [done|]. split; [done|].
      destruct (decide (hiragana_to_phoneme c = lit "-")) as [->|]; done. }
  unfold count_str_of, phoneme_str_of, join_empty. f_equal. f_equal.
  - clear Hself. induction cs as [|c cs IH]; [done|].
    rewrite fmap_cons, concat_cons.
    rewrite (proj1 (Hchar c (list_elem_of_here _ _))).
    rewrite IH by (intros c' Hc'; apply Hchar; by right). done.
  - f_equal. clear Hself. induction cs as [|c cs IH]; [done|].
    rewrite bind_cons, fmap_cons.
    rewrite (proj2 (Hchar c (list_elem_of_here _ _))).
    rewrite IH by (intros c' Hc'; apply Hchar; by right). done.
Qed.

Lemma process_text_kana_witness :
  process_text (reading (λ t, t)) [0x3053; 0x3093; 0x3070; 0x3063; 0x3002]%N
  = Some (replicate
            (length (remove_blanks
                       (clean_rich_text [0x3053; 0x3093; 0x3070; 0x3063; 0x3002]%N)))
            0x31%N,
          str_join (lit ",")
            (hiragana_to_phoneme
               <$> remove_blanks
                     (clean_rich_text [0x3053; 0x3093; 0x3070; 0x3063; 0x3002]%N))).
Proof.
  apply (process_text_kana (λ t, t) [0x3053; 0x3093; 0x3070; 0x3063; 0x3002]%N).
  - intros c _. reflexivity.
  - vm_compute. discriminate.
Defined.

(** ** The row loop of [process_csv] *)

(** The loop appends, row by row, the results of the rows. *)
Lemma process_rows_mapM conv rows cols :
  process_rows conv rows cols
  = (λ results : list (pystr * pystr),
       Columns (phoneme_count_strings cols ++ results.*1)
               (phoneme_strings cols ++ results.*2))
      <$> mapM (row_result conv) rows.
Proof.
  revert cols. induction rows as [|text rows IH]; intros cols.
  - cbn. rewrite !app_nil_r. by destruct cols.
  - cbn [process_rows mapM]. unfold process_row.
    destruct text as [text|].
    + change (row_result conv (Some text)) with (process_text conv text).
      destruct (process_text conv text) as [[count_str phonemes]|];
        [|reflexivity].
      cbn [mbind option_bind]. rewrite IH.
      destruct (mapM (row_result conv) rows) as [results|]; [|done].
      cbn. by rewrite <- !app_assoc.
    + change (row_result conv None) with (Some (lit "0", lit "-")).
      cbn [mbind option_bind]. rewrite IH.
      destruct (mapM (row_result conv) rows) as [results|]; [|done].
      cbn. by rewrite <- !app_assoc.
Qed.

(** X17. When the row loop of [process_csv] completes, both columns hold
    exactly one entry per row, and the entries of row [i] are the result of
    that row: [("0", "-")] for a missing cell, the result of [process_text]
    otherwise. *)
Theorem process_rows_columns (conv : JapaneseConverter) (rows : list cell)
  (cols : columns)
  (Hdone : process_rows conv rows (Columns [] []) = Some cols) :
  length (phoneme_count_strings cols) = length rows
  ∧ length (phoneme_strings cols) = length rows
  ∧ ∀ i text, rows !! i = Some text →
      ∃ count_str phonemes,
        row_result conv text = Some (count_str, phonemes)
        ∧ phoneme_count_strings cols !! i = Some count_str
        ∧ phoneme_strings cols !! i = Some phonemes.
Proof.
  rewrite process_rows_mapM in Hdone.
  destruct (mapM (row_result conv) rows) as [results|] eqn:Hm; [|done].
  injection Hdone as <-. cbn [phoneme_count_strings phoneme_strings app].
  apply mapM_Some in Hm. pose proof (Forall2_length _ _ _ Hm) as Hlen.
  rewrite !length_fmap. repeat split; [done..|].
  intros i text Hi.
  destruct (Forall2_lookup_l _ _ _ _ _ Hm Hi) as ([count_str phonemes] & Hr & Hrow).
  exists count_str, phonemes. rewrite !list_lookup_fmap, Hr. done.
Qed.

Lemma process_rows_columns_witness :
  length (phoneme_count_strings (Columns [lit "11"; lit "0"; lit "0"] [lit "a,-"; lit "-"; lit "-"]))
  = length [Some [0x306F; 0x3002]%N; None; Some (lit " ")]
  ∧ length (phoneme_strings (Columns [lit "11"; lit "0"; lit "0"] [lit "a,-"; lit "-"; lit "-"]))
    = length [Some [0x306F; 0x3002]%N; None; Some (lit " ")]
  ∧ ∀ i text, [Some [0x306F; 0x3002]%N; None; Some (lit " ")] !! i = Some text →
      ∃ count_str phonemes,
        row_result (reading (λ t, t)) text = Some (count_str, phonemes)
        ∧ phoneme_count_strings
            (Columns [lit "11"; lit "0"; lit "0"] [lit "a,-"; lit "-"; lit "-"]) !! i
          = Some count_str
        ∧ phoneme_strings
            (Columns [lit "11"; lit "0"; lit "0"] [lit "a,-"; lit "-"; lit "-"]) !! i
          = Some phonemes.
Proof.
  apply (process_rows_columns (reading (λ t, t))
           [Some [0x306F; 0x3002]%N; None; Some (lit " ")]).
  vm_compute. reflexivity.
Defined.

(** X18. The row loop of [process_csv] raises exactly when the conversion
    of some cell that is not missing raises; a missing cell never does. *)
Theorem process_rows_raises (conv : JapaneseConverter) (rows : list cell) :
  process_rows conv rows (Columns [] []) = None
  ↔ ∃ text, Some text ∈ rows ∧ process_text conv text = None.
Proof.
  rewrite process_rows_mapM.
  destruct (mapM (row_result conv) rows) as [results|] eqn:Hm.
  - split; [done|]. intros (text & Hin & Hnone).
    apply mapM_Some in Hm. apply list_elem_of_lookup in Hin as [i Hi].
    destruct (Forall2_lookup_l _ _ _ _ _ Hm Hi) as (r & _ & Hrow).
    simpl in Hrow. congruence.
  - split; [|done]. intros _. apply mapM_None, Exists_exists in Hm.
    destruct Hm as ([text|] & Hin & Hnone); [|done]. by exists text.
Qed.

(** ** When the count string has one digit per character *)

Lemma py_str_length_one n : length (py_str n) = 1 ↔ n ≤ 9.
Proof.
  split; [|intros Hn; by rewrite py_str_digit].
  unfold py_str. intros Hlen. rewrite <- (Unsigned.of_to n).
  destruct (Nat.to_uint n) as [|d|d|d|d|d|d|d|d|d|d]; [done|..];
    (destruct d; [cbn; lia | done ..]).
Qed.

Lemma count_str_length_exact f (clean_text : pystr) :
  length clean_text ≤ length (count_str_of f clean_text)
  ∧ (length (count_str_of f clean_text) = length clean_text
     ↔ Forall (λ c, char_count f c ≤ 9) clean_text).
Proof.
  unfold count_str_of, join_empty.
  induction clean_text as [|c cs [IHle IHiff]]; [by split|].
  rewrite fmap_cons, concat_cons, length_app. cbn [length].
  pose proof (py_str_nonempty (char_count f c)) as Hne.
  pose proof (py_str_length_one (char_count f c)) as Hone.
  assert (1 ≤ length (py_str (char_count f c))) as Hpos
    by (destruct (py_str (char_count f c)); [done | simpl; lia]).
  split; [lia|]. rewrite Forall_cons. split.
  - intros Hlen. split; [apply Hone | apply IHiff]; lia.
  - intros [Hc Hcs]. apply Hone in Hc. apply IHiff in Hcs. lia.
Qed.

(** X19. Under a backend that never raises, the count string of a text
    whose cleaned form is not empty has at least one character per
    character of the cleaned text, and exactly one per character if and
    only if no character yields more than nine phonemes. *)
Theorem count_str_alignment (f : pystr → pystr) (text : pystr)
  (Hclean : remove_blanks (clean_rich_text text) ≠ []) :
  ∃ count_str phoneme_str,
    process_text (reading f) text = Some (count_str, phoneme_str)
    ∧ length (remove_blanks (clean_rich_text text)) ≤ length count_str
    ∧ (length count_str = length (remove_blanks (clean_rich_text text))
       ↔ ∀ c, c ∈ remove_blanks (clean_rich_text text) → char_count f c ≤ 9).
Proof.
  rewrite process_text_reading.
  destruct (remove_blanks (clean_rich_text text)) as [|c cs] eqn:Hc; [done|].
  exists (count_str_of f (c :: cs)), (phoneme_str_of f (c :: cs)).
  destruct (count_str_length_exact f (c :: cs)) as [Hle Hiff].
  split; [done|]. split; [done|]. by rewrite Hiff, Forall_forall.
Qed.

Lemma count_str_alignment_witness :
  ∃ count_str phoneme_str,
    process_text (reading (λ _, replicate 12 0x3042%N)) [0x5BA2; 0x3002]%N
    = Some (count_str, phoneme_str)
    ∧ length (remove_blanks (clean_rich_text [0x5BA2; 0x3002]%N)) ≤ length count_str
    ∧ (length count_str = length (remove_blanks (clean_rich_text [0x5BA2; 0x3002]%N))
       ↔ ∀ c, c ∈ remove_blanks (clean_rich_text [0x5BA2; 0x3002]%N) →
              char_count (λ _, replicate 12 0x3042%N) c ≤ 9).
Proof.
  apply (count_str_alignment (λ _, replicate 12 0x3042%N) [0x5BA2; 0x3002]%N).
  vm_compute. discriminate.
Defined.
